(** * Re.Pack [OutputPlugin]: local/remote chunk classification, manifest
    injection and distribution.

    A shallow embedding of
    [packages/repack/src/webpack/plugins/OutputPlugin.ts].  JavaScript
    objects that are compared by reference (chunks) are addressed by a key
    into a heap of chunk records, and so are the regular expression objects
    of the rules, which a test may change; JavaScript [Set]s are lists
    without repetition kept in insertion order; the asset store is a finite
    map from file names to sources. *)

From Stdlib Require Import Ascii.
From stdpp Require Import gmap strings list pretty.

Local Open Scope string_scope.

(** ** JavaScript values *)

Module Js.

(** Truthiness of a possibly [undefined] string: [undefined] and the empty
    string are falsy. *)
Definition truthy (v : option string) : bool :=
  match v with
  | None => false
  | Some s => bool_decide (s ≠ "")
  end.

(** Truthiness of a possibly [undefined] boolean. *)
Definition truthy_bool (v : option bool) : bool := default false v.

(** [a ?? b] *)
Definition nullish {A} (a : option A) (b : A) : A := default b a.

(** String coercion of a possibly [undefined] string argument, as done by
    [RegExp.prototype.test]. *)
Definition ToString (v : option string) : string := default "undefined" v.

(** [Set.prototype.add] on an insertion-ordered set. *)
Definition Set_add (x : nat) (s : list nat) : list nat :=
  if decide (x ∈ s) then s else s ++ [x].

Definition dquote : ascii := "034"%char.
Definition newline : string := String "010"%char EmptyString.

Definition hex_digit (n : nat) : ascii :=
  match n with
  | 0 => "0" | 1 => "1" | 2 => "2" | 3 => "3" | 4 => "4" | 5 => "5"
  | 6 => "6" | 7 => "7" | 8 => "8" | 9 => "9" | 10 => "a" | 11 => "b"
  | 12 => "c" | 13 => "d" | 14 => "e" | _ => "f"
  end%char.

(** [JSON.stringify] on one character of a string (QuoteJSONString).
    Strings are taken as their UTF-8 bytes, so bytes from 128 on pass
    through unchanged. *)
Definition quote_char (c : ascii) : string :=
  let n := nat_of_ascii c in
  if decide (n = 34) then String "\"%char (String dquote EmptyString)
  else if decide (n = 92) then "\\"
  else if decide (n = 8) then "\b"
  else if decide (n = 12) then "\f"
  else if decide (n = 10) then "\n"
  else if decide (n = 13) then "\r"
  else if decide (n = 9) then "\t"
  else if decide (n < 32) then
    "\u00" +:+ String (hex_digit (n / 16)) (String (hex_digit (n mod 16)) EmptyString)
  else String c EmptyString.

Fixpoint quote_chars (s : string) : string :=
  match s with
  | EmptyString => EmptyString
  | String c s' => quote_char c +:+ quote_chars s'
  end.

Definition quote (s : string) : string :=
  String dquote (quote_chars s +:+ String dquote EmptyString).

(** An array element: [undefined] is serialized as [null]. *)
Definition stringify_element (v : option string) : string :=
  match v with
  | Some s => quote s
  | None => "null"
  end.

Fixpoint join_comma (l : list string) : string :=
  match l with
  | [] => ""
  | [x] => x
  | x :: rest => x +:+ "," +:+ join_comma rest
  end.

Definition stringify_array (l : list (option string)) : string :=
  "[" +:+ join_comma (stringify_element <$> l) +:+ "]".

(** [JSON.stringify({ local: l })] *)
Definition stringify_local (l : list (option string)) : string :=
  "{" +:+ quote "local" +:+ ":" +:+ stringify_array l +:+ "}".

End Js.

(** ** The part of webpack the plugin consumes *)

Module Webpack.

(** A reference to a chunk object; [===] on chunks is equality of
    references. *)
Definition ChunkRef := nat.

Inductive ChunkId :=
| IdString (s : string)
| IdNumber (n : Z).

Definition ChunkId_toString (i : ChunkId) : string :=
  match i with
  | IdString s => s
  | IdNumber n => pretty n
  end.

Record Chunk := {
  name : option string;
  id : option ChunkId;
  files : list string;
  (** [chunk.getAllInitialChunks()], spread into an array *)
  getAllInitialChunks : list ChunkRef;
}.

Record ChunkGroup := {
  chunks : list ChunkRef;
  isInitial : bool;
}.

(** The read-only view of a compilation: the chunk objects, the chunk set
    in iteration order, the chunk groups and the output path. *)
Record Compilation := {
  heap : ChunkRef → Chunk;
  compilation_chunks : list ChunkRef;
  chunkGroups : list ChunkGroup;
  outputOptions_path : option string;
}.

(** A regular expression object: what its matcher finds in a string from an
    index on (the index where the match ends), its [g] and [y] flags, and its
    [lastIndex], which [test] reads and writes when one of the flags is
    set. *)
Record RegExp := {
  search : string → nat → option nat;
  global : bool;
  sticky : bool;
  lastIndex : nat;
}.

Definition RegExp_setLastIndex (i : nat) (r : RegExp) : RegExp :=
  {| search := search r; global := global r; sticky := sticky r; lastIndex := i |}.

(** [RegExp.prototype.test]: the answer, and the [lastIndex] the call
    writes, if it writes one.  With the [g] or the [y] flag the search starts
    at [lastIndex], which becomes the end of the match, or 0 when nothing is
    found; without them it starts at 0 and [lastIndex] is not written. *)
Definition RegExp_test (r : RegExp) (str : string) : bool * option nat :=
  let stateful := global r || sticky r in
  let i := if stateful then lastIndex r else 0 in
  match (if decide (String.length str < i) then None else search r str i) with
  | None => (false, if stateful then Some 0 else None)
  | Some e => (true, if stateful then Some e else None)
  end.

(** A reference to a regular expression object, and the objects by
    reference: a rule that is given twice is one object, with one
    [lastIndex]. *)
Definition RegExpRef := nat.
Definition RegExps := RegExpRef → RegExp.

(** [test] called on the object behind a reference: the answer, and the
    objects as the call leaves them. *)
Definition RegExps_test (objects : RegExps) (ref : RegExpRef) (str : string)
    : bool * RegExps :=
  let '(b, written) := RegExp_test (objects ref) str in
  (b, match written with
      | None => objects
      | Some i =>
          λ r, if decide (r = ref) then RegExp_setLastIndex i (objects ref) else objects r
      end).

(** [Rule] of [../../types]: a string or a regular expression object. *)
Inductive Rule :=
| RuleString (s : string)
| RuleRegExp (ref : RegExpRef).

(** [Rule | Rule[]] *)
Inductive Rules :=
| OneRule (r : Rule)
| ManyRules (rs : list Rule).

Definition Rules_truthy (t : Rules) : bool :=
  match t with
  | OneRule (RuleString s) => bool_decide (s ≠ "")
  | _ => true
  end.

(** What [asRegExp] returns: a regular expression made by the call, or the
    object it was given. *)
Inductive RegExpValue :=
| NewRegExp (r : RegExp)
| TheRegExp (ref : RegExpRef).

(** webpack's [ModuleFilenameHelpers]: a string rule becomes a new regular
    expression, without flags, anchored at the start, that matches the string
    literally; a regular expression rule is the rule object itself. *)
Definition asRegExp (test : Rule) : RegExpValue :=
  match test with
  | RuleString s =>
      NewRegExp
        {| search := λ str _, if String.prefix s str then Some (String.length s) else None;
           global := false; sticky := false; lastIndex := 0 |}
  | RuleRegExp ref => TheRegExp ref
  end.

(** [asRegExp(test).test(str)]: the answer and the objects as the call
    leaves them (the object made for a string rule is dropped). *)
Definition Rule_test (objects : RegExps) (test : Rule) (str : string) : bool * RegExps :=
  match asRegExp test with
  | NewRegExp r => ((RegExp_test r str).1, objects)
  | TheRegExp ref => RegExps_test objects ref str
  end.

(** [test.map(asRegExp).some(regExp => regExp.test(str))]: the rules after
    the first one that answers true are not tested. *)
Fixpoint some_test (objects : RegExps) (rs : list Rule) (str : string) : bool * RegExps :=
  match rs with
  | [] => (false, objects)
  | r :: rest =>
      let '(b, objects) := Rule_test objects r str in
      if b then (true, objects) else some_test objects rest str
  end.

Definition matchPart (objects : RegExps) (str : string) (test : Rules) : bool * RegExps :=
  if negb (Rules_truthy test) then (true, objects)
  else match test with
       | ManyRules rs => some_test objects rs str
       | OneRule r => Rule_test objects r str
       end.

(** [matchObject({ include }, str)]: the answer and the objects as the call
    leaves them. *)
Definition matchObject (objects : RegExps) (include : Rules) (str : option string)
    : bool * RegExps :=
  if Rules_truthy include
  then let '(b, objects) := matchPart objects (Js.ToString str) include in
       (if negb b then false else true, objects)
  else (true, objects).

(** [compilation.updateAsset(file, fn)]: fails when the store has no such
    asset, otherwise replaces its source by [fn source]. *)
Definition updateAsset (assets : gmap string string) (file : option string)
    (fn : string → string) : string + gmap string string :=
  match file ≫= (assets !!.) with
  | None =>
      inl ("Called Compilation.updateAsset for not existing filename "
           +:+ Js.ToString file)
  | Some source => inr (<[default "" file := fn source]> assets)
  end.

End Webpack.

(** ** The plugin *)

Module Config.

(** [OutputPluginConfig], with the regular expression objects the rules of
    [localChunks] refer to.  [platform] is declared a [string]; the
    constructor still guards against a caller leaving it out, so it is
    optional here. *)
Record OutputPluginConfig := {
  platform : option string;
  devServerEnabled : option bool;
  localChunks : option Webpack.Rules;
  remoteChunksOutput : option string;
  entry : option string;
  regExps : Webpack.RegExps;
}.

Definition with_regExps (objects : Webpack.RegExps) (cfg : OutputPluginConfig)
    : OutputPluginConfig :=
  {| platform := platform cfg; devServerEnabled := devServerEnabled cfg;
     localChunks := localChunks cfg; remoteChunksOutput := remoteChunksOutput cfg;
     entry := entry cfg; regExps := objects |}.

End Config.

Module Cli.

(** [CliOptions] of [../../types], decoded from the environment: the
    [arguments] object has either a [bundle] or a [start] key. *)
Record BundleArguments := {
  bundleOutput : string;
  assetsDest : option string;
  sourcemapOutput : option string;
}.

Inductive Arguments :=
| ArgumentsBundle (bundle : BundleArguments)
| ArgumentsStart.

Record CliOptions := {
  config_root : string;
  arguments : Arguments;
}.

(** ['start' in cliOptions.arguments] *)
Definition has_start (a : Arguments) : bool :=
  match a with
  | ArgumentsStart => true
  | ArgumentsBundle _ => false
  end.

End Cli.

Module AssetsCopyProcessor.

(** The destinations a processor is constructed with. *)
Record Options := {
  platform : option string;
  outputPath : string;
  bundleOutput : string;
  bundleOutputDir : string;
  sourcemapOutput : string;
  assetsDest : string;
}.

(** Modelled from the spec: [./utils/AssetsCopyProcessor] is not among the
    sources.  The collaborator keeps a queue of requests, one per enqueued
    chunk with its entry flag; [execute] starts the copy of every queued
    request and yields one completion signal per request, and the failure of
    a copy is the failure of its signal. *)
Record t := {
  options : Options;
  queue : list (Webpack.ChunkRef * bool);
}.

Definition new (o : Options) : t := {| options := o; queue := [] |}.

Definition enqueueChunk (p : t) (chunk : Webpack.ChunkRef) (isEntry : bool) : t :=
  {| options := options p; queue := queue p ++ [(chunk, isEntry)] |}.

(** A copy: where to, which chunk, and whether it is the entry. *)
Record Copy := {
  copy_to : Options;
  copy_chunk : Webpack.ChunkRef;
  copy_isEntry : bool;
}.

(** The file system the copies go through: the error it answers a copy
    with, if it fails it. *)
Definition Filesystem := Copy → option string.

(** A settled completion signal. *)
Inductive Settled :=
| Fulfilled (c : Copy)
| Rejected (message : string).

Definition settle (filesystem : Filesystem) (c : Copy) : Settled :=
  match filesystem c with
  | None => Fulfilled c
  | Some message => Rejected message
  end.

Definition execute (filesystem : Filesystem) (p : t) : list Settled :=
  (λ r, settle filesystem {| copy_to := options p; copy_chunk := r.1; copy_isEntry := r.2 |})
    <$> queue p.

(** The copies carried out, and the first failure, among settled signals. *)
Definition fulfilled (l : list Settled) : list Copy :=
  omap (λ x, match x with Fulfilled c => Some c | Rejected _ => None end) l.

Definition rejection (l : list Settled) : option string :=
  head (omap (λ x, match x with Fulfilled _ => None | Rejected m => Some m end) l).

End AssetsCopyProcessor.

Module OutputPlugin.
Import Webpack.

Record OutputPlugin := { config : Config.OutputPluginConfig }.

(** The constructor: either the error it throws or the plugin. *)
Definition constructor (config : Config.OutputPluginConfig) : string + OutputPlugin :=
  if negb (Js.truthy (Config.platform config))
  then inl "Missing `platform` option in `OutputPlugin`"
  else inr {| config := config |}.

(** The variables [apply] declares and its hooks close over. *)
Record Closure := {
  entryGroup : option ChunkGroup;
  entryChunk : option ChunkRef;
  localChunks : list ChunkRef;
  remoteChunks : list ChunkRef;
}.

Definition initial : Closure :=
  {| entryGroup := None; entryChunk := None; localChunks := []; remoteChunks := [] |}.

Definition set_entry (g : option ChunkGroup) (c : option ChunkRef) (v : Closure) : Closure :=
  {| entryGroup := g; entryChunk := c;
     localChunks := localChunks v; remoteChunks := remoteChunks v |}.

(** [localChunks.push(chunk)] *)
Definition push_local (chunk : ChunkRef) (v : Closure) : Closure :=
  {| entryGroup := entryGroup v; entryChunk := entryChunk v;
     localChunks := localChunks v ++ [chunk]; remoteChunks := remoteChunks v |}.

(** [remoteChunks.push(chunk)] *)
Definition push_remote (chunk : ChunkRef) (v : Closure) : Closure :=
  {| entryGroup := entryGroup v; entryChunk := entryChunk v;
     localChunks := localChunks v; remoteChunks := remoteChunks v ++ [chunk] |}.

(** What a build can observe and the hooks change: the closure variables,
    the asset store of the compilation, and the copies carried out. *)
Record World := {
  vars : Closure;
  assets : gmap string string;
  copied : list AssetsCopyProcessor.Copy;
}.

(** *** Hooks: state and exceptions *)

Inductive Completion (A : Type) :=
| Normal (a : A)
| Throw (message : string).
Arguments Normal {A} a.
Arguments Throw {A} message.

Definition Hook (A : Type) : Type := World → World * Completion A.

Definition ret {A} (a : A) : Hook A := λ w, (w, Normal a).

Definition bind {A B} (m : Hook A) (k : A → Hook B) : Hook B :=
  λ w, match m w with
       | (w', Normal a) => k a w'
       | (w', Throw e) => (w', Throw e)
       end.

Definition throw {A} (message : string) : Hook A := λ w, (w, Throw message).

Definition get_vars : Hook Closure := λ w, (w, Normal (vars w)).

Definition modify_vars (f : Closure → Closure) : Hook unit :=
  λ w, ({| vars := f (vars w); assets := assets w; copied := copied w |}, Normal tt).

Definition compilation_updateAsset (file : option string) (fn : string → string) : Hook unit :=
  λ w, match updateAsset (assets w) file fn with
       | inl e => (w, Throw e)
       | inr a => ({| vars := vars w; assets := a; copied := copied w |}, Normal tt)
       end.

(** [await Promise.all(...)] over the completion signals of both
    processors: it throws when a copy failed.  Nothing cancels the other
    copies, which are carried out all the same.  Which failure is thrown when
    several copies fail depends on the order in which they settle; the first
    in the order of the signals stands for it. *)
Definition await_all (signals : list AssetsCopyProcessor.Settled) : Hook unit :=
  λ w, ({| vars := vars w; assets := assets w;
           copied := copied w ++ AssetsCopyProcessor.fulfilled signals |},
        match AssetsCopyProcessor.rejection signals with
        | None => Normal tt
        | Some message => Throw message
        end).

#[global] Instance Hook_ret : MRet Hook := @ret.
#[global] Instance Hook_bind : MBind Hook := λ A B k m, bind m k.

(** *** Classification *)

(** [chunk.name ?? chunk.id?.toString()] *)
Definition chunkIdentity (c : Chunk) : option string :=
  match name c with
  | Some n => Some n
  | None => ChunkId_toString <$> id c
  end.

(** A call of [isLocalChunk]: the answer, and the configuration with the
    regular expression objects as the call leaves them.  The array that
    stands in for a missing [localChunks] is made anew by every call. *)
Definition isLocalChunk_call (cfg : Config.OutputPluginConfig) (chunkId : option string)
    : bool * Config.OutputPluginConfig :=
  let '(b, objects) :=
    matchObject (Config.regExps cfg)
                (Js.nullish (Config.localChunks cfg) (ManyRules [])) chunkId in
  (b, Config.with_regExps objects cfg).

Definition isLocalChunk (cfg : Config.OutputPluginConfig) (chunkId : option string) : bool :=
  (isLocalChunk_call cfg chunkId).1.

Definition isLocalChunk_after (cfg : Config.OutputPluginConfig) (chunkId : option string)
    : Config.OutputPluginConfig :=
  (isLocalChunk_call cfg chunkId).2.

Definition entryChunkName (cfg : Config.OutputPluginConfig) : string :=
  Js.nullish (Config.entry cfg) "main".

Section Passes.
Variable cfg : Config.OutputPluginConfig.
Variable compilation : Compilation.

Definition closure (chunk : ChunkRef) : list ChunkRef :=
  getAllInitialChunks (heap compilation chunk).

Definition identity (chunk : ChunkRef) : option string :=
  chunkIdentity (heap compilation chunk).

(** The entry resolution at the head of the [processAssets] callback. *)
Definition findEntryGroup : option ChunkGroup :=
  List.find isInitial (chunkGroups compilation).

Definition findEntryChunk : option ChunkRef :=
  findEntryGroup ≫= λ group,
    List.find (λ chunk, bool_decide (name (heap compilation chunk) = Some (entryChunkName cfg)))
              (chunks group).

(** One iteration of [for (const chunk of compilation.chunks)]; the
    accumulator holds the [sharedChunks] set, the closure variables and the
    configuration, whose regular expression objects the calls of
    [isLocalChunk] change. *)
Definition classifyChunk (acc : list ChunkRef * Closure * Config.OutputPluginConfig)
    (chunk : ChunkRef) : list ChunkRef * Closure * Config.OutputPluginConfig :=
  let '(sharedChunks, v, config) := acc in
  if decide (chunk ∈ sharedChunks) then acc
  else
    let sharedChunks :=
      foldl (λ s sharedChunk, Js.Set_add sharedChunk s) sharedChunks
            (filter (λ sharedChunk, sharedChunk ≠ chunk) (closure chunk)) in
    if bool_decide (entryChunk v = Some chunk) then (sharedChunks, push_local chunk v, config)
    else
      let '(matches, config) := isLocalChunk_call config (identity chunk) in
      if matches then (sharedChunks, push_local chunk v, config)
      else (sharedChunks, push_remote chunk v, config).

Definition isUsedByLocalChunk (v : Closure) (sharedChunk : ChunkRef) : bool :=
  existsb (λ localChunk, bool_decide (sharedChunk ∈ closure localChunk)) (localChunks v).

(** One iteration of [for (const sharedChunk of sharedChunks)]:
    [isLocalChunk] is called only when no local chunk uses the chunk. *)
Definition resolveSharedChunk (acc : Closure * Config.OutputPluginConfig)
    (sharedChunk : ChunkRef) : Closure * Config.OutputPluginConfig :=
  let '(v, config) := acc in
  if isUsedByLocalChunk v sharedChunk then (push_local sharedChunk v, config)
  else
    let '(matches, config) := isLocalChunk_call config (identity sharedChunk) in
    if matches then (push_local sharedChunk v, config)
    else (push_remote sharedChunk v, config).

(** [for (const chunk of compilation.chunks)], after the entry resolution. *)
Definition firstLoop (v : Closure) : list ChunkRef * Closure * Config.OutputPluginConfig :=
  foldl classifyChunk ([], set_entry findEntryGroup findEntryChunk v, cfg)
        (compilation_chunks compilation).

(** The [sharedChunks] set and the closure variables after the first loop. *)
Definition firstPass (v : Closure) : list ChunkRef * Closure := (firstLoop v).1.

(** [for (const sharedChunk of sharedChunks)] *)
Definition secondPass (acc : Closure * Config.OutputPluginConfig)
    (sharedChunks : list ChunkRef) : Closure * Config.OutputPluginConfig :=
  foldl resolveSharedChunk acc sharedChunks.

(** Entry resolution and the two loops: the closure variables and the
    configuration they leave. *)
Definition classification (v : Closure) : Closure * Config.OutputPluginConfig :=
  secondPass ((firstLoop v).1.2, (firstLoop v).2) (firstLoop v).1.1.

Definition classify (v : Closure) : Closure := (classification v).1.

(** The configuration after the callback: where a later run starts from. *)
Definition configAfter (v : Closure) : Config.OutputPluginConfig := (classification v).2.

(** The declaration put in front of the main bundle. *)
Definition manifest (v : Closure) : string :=
  "var __CHUNKS__=" +:+ Js.stringify_local (identity <$> localChunks v) +:+ ";".

(** The [processAssets] callback. *)
Definition processAssets : Hook unit :=
  modify_vars classify ;;
  v ← get_vars ;
  match entryChunk v with
  | None => throw "Cannot infer entry chunk - this should have not happened."
  | Some entryChunk =>
      let mainBundleAssetName := head (files (heap compilation entryChunk)) in
      compilation_updateAsset mainBundleAssetName
        (λ source, manifest v +:+ Js.newline +:+ source)
  end.

End Passes.

(** *** Distribution *)

(** The output paths [apply] works out before it registers its hooks. *)
Record Paths := {
  bundleOutput : string;
  bundleOutputDir : string;
  sourcemapOutput : string;
  assetsDest : string;
  remoteChunksOutput : option string;
}.

Section Distribution.
(** Node's [fs], through the copy processors. *)
Variable filesystem : AssetsCopyProcessor.Filesystem.
Variable cfg : Config.OutputPluginConfig.
Variable paths : Paths.
Variable compilation : Compilation.

Definition localOptions (outputPath : string) : AssetsCopyProcessor.Options :=
  {| AssetsCopyProcessor.platform := Config.platform cfg;
     AssetsCopyProcessor.outputPath := outputPath;
     AssetsCopyProcessor.bundleOutput := bundleOutput paths;
     AssetsCopyProcessor.bundleOutputDir := bundleOutputDir paths;
     AssetsCopyProcessor.sourcemapOutput := sourcemapOutput paths;
     AssetsCopyProcessor.assetsDest := assetsDest paths |}.

Definition remoteOptions (outputPath : string) : AssetsCopyProcessor.Options :=
  {| AssetsCopyProcessor.platform := Config.platform cfg;
     AssetsCopyProcessor.outputPath := outputPath;
     AssetsCopyProcessor.bundleOutput := "";
     AssetsCopyProcessor.bundleOutputDir := Js.nullish (remoteChunksOutput paths) "";
     AssetsCopyProcessor.sourcemapOutput := "";
     AssetsCopyProcessor.assetsDest := Js.nullish (remoteChunksOutput paths) "" |}.

(** The first loop of the [afterEmit] callback. *)
Definition enqueueLocal (v : Closure) (p : AssetsCopyProcessor.t) : AssetsCopyProcessor.t :=
  foldl (λ p chunk,
           AssetsCopyProcessor.enqueueChunk p chunk (bool_decide (entryChunk v = Some chunk)))
        p (localChunks v).

(** The guarded second loop. *)
Definition enqueueRemote (v : Closure) (p : AssetsCopyProcessor.t) : AssetsCopyProcessor.t :=
  if Js.truthy (remoteChunksOutput paths)
  then foldl (λ p chunk, AssetsCopyProcessor.enqueueChunk p chunk false) p (remoteChunks v)
  else p.

(** The [afterEmit] callback. *)
Definition afterEmit : Hook unit :=
  if negb (Js.truthy (outputOptions_path compilation))
  then throw "Cannot infer output path from compilation"
  else
    let outputPath := default "" (outputOptions_path compilation) in
    v ← get_vars ;
    let localAssetsCopyProcessor :=
      enqueueLocal v (AssetsCopyProcessor.new (localOptions outputPath)) in
    let remoteAssetsCopyProcessor :=
      enqueueRemote v (AssetsCopyProcessor.new (remoteOptions outputPath)) in
    await_all (AssetsCopyProcessor.execute filesystem localAssetsCopyProcessor
               ++ AssetsCopyProcessor.execute filesystem remoteAssetsCopyProcessor).

End Distribution.

(** *** [apply] *)

(** A tapped callback, under the name it was tapped with. *)
Record Tap := {
  tap_name : string;
  tap_fn : Compilation → Hook unit;
}.

(** The compiler as the plugin sees it: the callbacks tapped on
    [compilation] (each taps [processAssets] of the new compilation) and on
    [afterEmit], and what was sent to the infrastructure logger. *)
Record Compiler := {
  hooks_compilation : list Tap;
  hooks_afterEmit : list Tap;
  infrastructureLog : list (string * string * Paths);
}.

Section Apply.
(** Node's [path] module. *)
Variable path_isAbsolute : string → bool.
Variable path_join : string → string → string.
Variable path_dirname : string → string.
(** Node's [fs]. *)
Variable filesystem : AssetsCopyProcessor.Filesystem.

Definition detectPaths (cfg : Config.OutputPluginConfig) (root : string)
    (args : Cli.BundleArguments) : Paths :=
  let bundleOutput := Cli.bundleOutput args in
  let assetsDest := Js.nullish (Cli.assetsDest args) "" in
  let sourcemapOutput := Js.nullish (Cli.sourcemapOutput args) "" in
  let bundleOutput :=
    if negb (path_isAbsolute bundleOutput) then path_join root bundleOutput
    else bundleOutput in
  let bundleOutputDir := path_dirname bundleOutput in
  let sourcemapOutput :=
    if negb (Js.truthy (Some sourcemapOutput)) then bundleOutput +:+ ".map"
    else sourcemapOutput in
  let sourcemapOutput :=
    if negb (path_isAbsolute sourcemapOutput) then path_join root sourcemapOutput
    else sourcemapOutput in
  let assetsDest :=
    if negb (Js.truthy (Some assetsDest)) then bundleOutputDir else assetsDest in
  let remoteChunksOutput := Config.remoteChunksOutput cfg in
  let remoteChunksOutput :=
    if Js.truthy remoteChunksOutput
       && negb (path_isAbsolute (default "" remoteChunksOutput))
    then Some (path_join root (default "" remoteChunksOutput))
    else remoteChunksOutput in
  {| bundleOutput := bundleOutput; bundleOutputDir := bundleOutputDir;
     sourcemapOutput := sourcemapOutput; assetsDest := assetsDest;
     remoteChunksOutput := remoteChunksOutput |}.

(** The guard at the head of [apply]: no decoded CLI options, a [start]
    command, or the development server. *)
Definition bypass (cfg : Config.OutputPluginConfig) (cliOptions : option Cli.CliOptions) : bool :=
  match cliOptions with
  | None => true
  | Some o => Cli.has_start (Cli.arguments o)
              || Js.truthy_bool (Config.devServerEnabled cfg)
  end.

(** [apply(compiler)], given the decoded [process.env] entry.  Past the
    guard the options are there and carry the [bundle] arguments. *)
Definition apply (plugin : OutputPlugin) (cliOptions : option Cli.CliOptions)
    (compiler : Compiler) : Compiler :=
  let cfg := config plugin in
  if bypass cfg cliOptions then compiler
  else
    match cliOptions with
    | Some {| Cli.config_root := root; Cli.arguments := Cli.ArgumentsBundle args |} =>
        let paths := detectPaths cfg root args in
        {| hooks_compilation :=
             hooks_compilation compiler
             ++ [{| tap_name := "OutputPlugin"; tap_fn := processAssets cfg |}];
           hooks_afterEmit :=
             hooks_afterEmit compiler
             ++ [{| tap_name := "OutputPlugin"; tap_fn := afterEmit filesystem cfg paths |}];
           infrastructureLog :=
             infrastructureLog compiler
             ++ [("ReactNativeOutputPlugin", "Detected output paths:", paths)] |}
    | _ => compiler
    end.

End Apply.

(** *** The build pipeline *)

(** Callbacks run in the order they were tapped; a throw ends the run. *)
Definition callTaps (taps : list Tap) (compilation : Compilation) : Hook unit :=
  foldr (λ t rest, tap_fn t compilation ;; rest) (mret tt) taps.

(** The asset-processing stage comes before emission, [afterEmit] after
    it; a stage that throws aborts the build. *)
Definition runBuild (compiler : Compiler) (compilation : Compilation) : Hook unit :=
  callTaps (hooks_compilation compiler) compilation ;;
  callTaps (hooks_afterEmit compiler) compilation.

End OutputPlugin.

(** * Vocabulary of the properties *)

Import Webpack OutputPlugin.
Local Open Scope list_scope.

(** The state the first loop maintains, whatever the rules answer:
    [visited] is the part of [compilation.chunks] iterated so far, [acc] the
    [sharedChunks] set paired with the closure variables. *)
Record FirstPassInv (compilation : Compilation)
    (e : option ChunkRef) (visited : list ChunkRef)
    (acc : list ChunkRef * Closure) : Prop := {
  inv_entry : entryChunk acc.2 = e;
  inv_nodup : NoDup acc.1;
  inv_total : ∀ c, c ∈ visited → c ∈ acc.1 ∨ c ∈ localChunks acc.2 ∨ c ∈ remoteChunks acc.2;
  inv_remote : ∀ c, c ∈ remoteChunks acc.2 → e ≠ Some c;
  inv_shared : ∀ c y, c ∈ localChunks acc.2 ++ remoteChunks acc.2 →
                      y ∈ closure compilation c → y ≠ c → y ∈ acc.1;
}.

(** Rules that keep nothing from one test to the next: strings, and regular
    expressions with neither the [g] nor the [y] flag. *)
Definition Rule_stateless (objects : RegExps) (r : Rule) : bool :=
  match r with
  | RuleString _ => true
  | RuleRegExp ref => negb (global (objects ref) || sticky (objects ref))
  end.

Definition Rules_stateless (objects : RegExps) (t : Rules) : bool :=
  match t with
  | OneRule r => Rule_stateless objects r
  | ManyRules rs => forallb (Rule_stateless objects) rs
  end.

Definition stateless (cfg : Config.OutputPluginConfig) : bool :=
  match Config.localChunks cfg with
  | None => true
  | Some rules => Rules_stateless (Config.regExps cfg) rules
  end.

(** With such rules the loops leave the configuration as it is, and what
    the arrays hold went through a rule test that any later test repeats. *)
Record RuleInv (cfg : Config.OutputPluginConfig) (compilation : Compilation)
    (e : option ChunkRef) (acc : Closure * Config.OutputPluginConfig) : Prop := {
  rule_config : acc.2 = cfg;
  rule_local : ∀ c, c ∈ localChunks acc.1 →
                    e = Some c ∨ isLocalChunk cfg (identity compilation c) = true;
  rule_remote : ∀ c, c ∈ remoteChunks acc.1 →
                     isLocalChunk cfg (identity compilation c) = false;
}.

(** A chunk is in [localChunks] for a reason: it is the entry chunk, it
    matches the rules, or a local chunk has it among its initial chunks. *)
Definition Justified (cfg : Config.OutputPluginConfig) (compilation : Compilation)
    (e : option ChunkRef) (v : Closure) : Prop :=
  ∀ x, x ∈ localChunks v →
       e = Some x ∨ isLocalChunk cfg (identity compilation x) = true
       ∨ ∃ l, l ∈ localChunks v ∧ x ∈ closure compilation l.

(** Strings [JSON.stringify] has nothing to escape in: no control
    character, no double quote, no backslash. *)
Fixpoint plain (s : string) : bool :=
  match s with
  | EmptyString => true
  | String c s' =>
      let n := nat_of_ascii c in
      bool_decide (32 ≤ n ∧ n ≠ 34 ∧ n ≠ 92)%nat && plain s'
  end.

(** A compiler nothing has been tapped on. *)
Definition emptyCompiler : Compiler :=
  {| hooks_compilation := []; hooks_afterEmit := []; infrastructureLog := [] |}.

(** ** Concrete builds *)

Module Builds.

Definition chunk (n : string) (initial : list ChunkRef) : Chunk :=
  {| name := Some n; id := None; files := [n +:+ ".chunk.bundle"];
     getAllInitialChunks := initial |}.

(** A regular expression that matches nothing, for the references no rule
    uses. *)
Definition unused : RegExp :=
  {| search := λ _ _, None; global := false; sticky := false; lastIndex := 0 |}.

Definition configure (rules : option Rules) (remote : option string) : Config.OutputPluginConfig :=
  {| Config.platform := Some "ios"; Config.devServerEnabled := None;
     Config.localChunks := rules; Config.remoteChunksOutput := remote;
     Config.entry := None; Config.regExps := λ _, unused |}.

Definition noPlatform : Config.OutputPluginConfig :=
  {| Config.platform := Some ""; Config.devServerEnabled := None;
     Config.localChunks := None; Config.remoteChunksOutput := None;
     Config.entry := None; Config.regExps := λ _, unused |}.

Definition devServer : Config.OutputPluginConfig :=
  {| Config.platform := Some "android"; Config.devServerEnabled := Some true;
     Config.localChunks := None; Config.remoteChunksOutput := None;
     Config.entry := None; Config.regExps := λ _, unused |}.

(** Three entry points, [settings] depending on [profile]: the initial
    chunks of [profile] include [settings], not the other way round. *)
Definition dependOn : Compilation :=
  {| heap := λ r, match r with
                  | 0 => chunk "main" [0]
                  | 1 => chunk "settings" [1]
                  | _ => chunk "profile" [2; 1]
                  end;
     compilation_chunks := [0; 1; 2];
     chunkGroups := [ {| chunks := [0]; isInitial := true |};
                      {| chunks := [1]; isInitial := true |};
                      {| chunks := [2]; isInitial := true |} ];
     outputOptions_path := Some "/build" |}.

Definition dependOn_config : Config.OutputPluginConfig :=
  configure (Some (ManyRules [RuleString "profile"])) None.

(** One entry point whose vendor chunk was split off and comes first in
    [compilation.chunks]. *)
Definition vendorFirst : Compilation :=
  {| heap := λ r, match r with
                  | 0 => chunk "vendor" [0; 1]
                  | _ => chunk "main" [0; 1]
                  end;
     compilation_chunks := [0; 1];
     chunkGroups := [ {| chunks := [0; 1]; isInitial := true |} ];
     outputOptions_path := Some "/build" |}.

(** The entry point and a second initial group of three chunks, the last
    of which matches the rule. *)
Definition lateRule : Compilation :=
  {| heap := λ r, match r with
                  | 0 => chunk "main" [0]
                  | 1 => chunk "feature" [1; 2; 3]
                  | 2 => chunk "vendor" [1; 2; 3]
                  | _ => chunk "shared-ui" [1; 2; 3]
                  end;
     compilation_chunks := [0; 1; 2; 3];
     chunkGroups := [ {| chunks := [0]; isInitial := true |};
                      {| chunks := [1; 2; 3]; isInitial := true |} ];
     outputOptions_path := Some "/build" |}.

Definition lateRule_config : Config.OutputPluginConfig :=
  configure (Some (OneRule (RuleString "shared-ui"))) None.

(** The entry chunk with its vendor chunk, and one chunk loaded on demand. *)
Definition split : Compilation :=
  {| heap := λ r, match r with
                  | 0 => chunk "main" [0; 1]
                  | 1 => chunk "vendor" [0; 1]
                  | _ => chunk "async" []
                  end;
     compilation_chunks := [0; 1; 2];
     chunkGroups := [ {| chunks := [0; 1]; isInitial := true |};
                      {| chunks := [2]; isInitial := false |} ];
     outputOptions_path := Some "/build" |}.

(** Chunks that share nothing. *)
Definition apart : Compilation :=
  {| heap := λ r, match r with
                  | 0 => chunk "main" [0]
                  | 1 => chunk "async" []
                  | _ => {| name := None; id := Some (IdNumber 42);
                            files := ["42.chunk.bundle"]; getAllInitialChunks := [] |}
                  end;
     compilation_chunks := [0; 1; 2];
     chunkGroups := [ {| chunks := [1]; isInitial := false |};
                      {| chunks := [0]; isInitial := true |} ];
     outputOptions_path := Some "/build" |}.

(** No chunk of the initial group is called [main]. *)
Definition noEntry : Compilation :=
  {| heap := λ r, chunk "index" [0];
     compilation_chunks := [0];
     chunkGroups := [ {| chunks := [0]; isInitial := true |} ];
     outputOptions_path := Some "/build" |}.

(** The entry chunk alone, in a compilation without output path. *)
Definition noOutputPath : Compilation :=
  {| heap := λ r, chunk "main" [0];
     compilation_chunks := [0];
     chunkGroups := [ {| chunks := [0]; isInitial := true |} ];
     outputOptions_path := None |}.




(** A file system on which every copy goes through, and one that fails the
    copies of chunk 1. *)
Definition reliable : AssetsCopyProcessor.Filesystem := λ _, None.

Definition failing : AssetsCopyProcessor.Filesystem :=
  λ c, if decide (AssetsCopyProcessor.copy_chunk c = 1) then Some "ENOSPC" else None.

Definition world (files : list (string * string)) : World :=
  {| vars := initial; assets := list_to_map files; copied := [] |}.

Definition bundleArguments : Cli.BundleArguments :=
  {| Cli.bundleOutput := "/app/ios/main.jsbundle";
     Cli.assetsDest := None; Cli.sourcemapOutput := None |}.

Definition relativeArguments : Cli.BundleArguments :=
  {| Cli.bundleOutput := "ios/main.jsbundle";
     Cli.assetsDest := Some "res"; Cli.sourcemapOutput := None |}.

Definition bundleCommand : Cli.CliOptions :=
  {| Cli.config_root := "/app"; Cli.arguments := Cli.ArgumentsBundle bundleArguments |}.

Definition startCommand : Cli.CliOptions :=
  {| Cli.config_root := "/app"; Cli.arguments := Cli.ArgumentsStart |}.

(** Stand-ins for Node's [path]; the properties below hold whatever the
    three functions are. *)
Definition isAbsolute (p : string) : bool := String.prefix "/" p.
Definition join (a b : string) : string := a +:+ "/" +:+ b.
Definition dirname (p : string) : string := p +:+ "/..".

End Builds.

(** ** Further vocabulary *)

(** Where the chunks of the shared set and of the two arrays come from,
    while the first loop runs. *)
Record OriginInv (compilation : Compilation) (visited : list ChunkRef)
    (acc : list ChunkRef * Closure) : Prop := {
  origin_shared : ∀ s, s ∈ acc.1 →
    ∃ c, c ∈ localChunks acc.2 ++ remoteChunks acc.2 ∧ s ∈ closure compilation c ∧ s ≠ c;
  origin_pushed : ∀ p, p ∈ localChunks acc.2 ++ remoteChunks acc.2 → p ∈ visited;
}.

(** The two arrays while the first loop runs over a chunk set in which
    being among the initial chunks is mutual: no repetition, nothing in
    common, and nothing that is also in the shared set. *)
Record PartitionInv (compilation : Compilation) (acc : list ChunkRef * Closure) : Prop := {
  part_local : NoDup (localChunks acc.2);
  part_remote : NoDup (remoteChunks acc.2);
  part_disjoint : ∀ p, p ∈ localChunks acc.2 → p ∉ remoteChunks acc.2;
  part_apart : ∀ p, p ∈ localChunks acc.2 ++ remoteChunks acc.2 → p ∉ acc.1;
  part_inside : ∀ s, s ∈ acc.1 → s ∈ compilation_chunks compilation;
}.

(** Strings without a control character: no byte below 32, so no line
    break. *)
Fixpoint printable (s : string) : bool :=
  match s with
  | EmptyString => true
  | String c s' => bool_decide (32 ≤ nat_of_ascii c)%nat && printable s'
  end.

(** Reading the first character of the inside of a string literal, with
    what follows it: a character that stands for itself, or one of the escapes
    of the JSON grammar (the code points written with four hexadecimal digits
    are those of one byte).  A bare double quote ends the literal and is not
    read; a bare control character is not allowed. *)
Definition hex_value (c : ascii) : option nat :=
  let n := nat_of_ascii c in
  if decide (48 ≤ n ≤ 57)%nat then Some (n - 48)
  else if decide (97 ≤ n ≤ 102)%nat then Some (n - 87)
  else if decide (65 ≤ n ≤ 70)%nat then Some (n - 55)
  else None.

Definition unquote_char (s : string) : option (ascii * string) :=
  match s with
  | EmptyString => None
  | String c rest =>
      if Ascii.eqb c "034"%char then None
      else if decide (nat_of_ascii c < 32)%nat then None
      else if negb (Ascii.eqb c "092"%char) then Some (c, rest)
      else match rest with
           | EmptyString => None
           | String x rest =>
               if Ascii.eqb x "034"%char then Some ("034"%char, rest)
               else if Ascii.eqb x "092"%char then Some ("092"%char, rest)
               else if Ascii.eqb x "b"%char then Some ("008"%char, rest)
               else if Ascii.eqb x "f"%char then Some ("012"%char, rest)
               else if Ascii.eqb x "n"%char then Some ("010"%char, rest)
               else if Ascii.eqb x "r"%char then Some ("013"%char, rest)
               else if Ascii.eqb x "t"%char then Some ("009"%char, rest)
               else if negb (Ascii.eqb x "u"%char) then None
               else match rest with
                    | String "0" (String "0" (String h (String l rest))) =>
                        match hex_value h, hex_value l with
                        | Some a, Some b => Some (ascii_of_nat (16 * a + b), rest)
                        | _, _ => None
                        end
                    | _ => None
                    end
           end
  end.

(** Reading the declaration as JavaScript reads it, written from the JSON
    grammar and not from the serializer.  [ReadsChars text s rest]: [text] is
    the inside of a string literal for [s], then the closing double quote,
    then [rest]. *)
Inductive ReadsChars : string → string → string → Prop :=
| reads_closing rest : ReadsChars (String "034" rest) EmptyString rest
| reads_char text c text' s rest :
    unquote_char text = Some (c, text') →
    ReadsChars text' s rest →
    ReadsChars text (String c s) rest.

(** An array element: [null], read as [undefined], or a string literal. *)
Inductive ReadsElement : string → option string → string → Prop :=
| reads_null rest :
    ReadsElement (String "n" (String "u" (String "l" (String "l" rest)))) None rest
| reads_string text s rest :
    ReadsChars text s rest → ReadsElement (String "034" text) (Some s) rest.

(** What follows an element: the closing bracket, or a comma and the next
    element. *)
Inductive ReadsTail : string → list (option string) → string → Prop :=
| reads_bracket rest : ReadsTail (String "]" rest) [] rest
| reads_comma text x text' l rest :
    ReadsElement text x text' →
    ReadsTail text' l rest →
    ReadsTail (String "," text) (x :: l) rest.

Inductive ReadsArray : string → list (option string) → string → Prop :=
| reads_empty rest : ReadsArray (String "[" (String "]" rest)) [] rest
| reads_first text x text' l rest :
    ReadsElement text x text' →
    ReadsTail text' l rest →
    ReadsArray (String "[" text) (x :: l) rest.


(** The copies a processor constructed with [options] carries out for
    [chunks], flagged by [isEntry]. *)
Definition copies (options : AssetsCopyProcessor.Options) (isEntry : ChunkRef → bool)
    (chunks : list ChunkRef) : list AssetsCopyProcessor.Copy :=
  (λ chunk, {| AssetsCopyProcessor.copy_to := options;
               AssetsCopyProcessor.copy_chunk := chunk;
               AssetsCopyProcessor.copy_isEntry := isEntry chunk |}) <$> chunks.

(** The copies the [afterEmit] callback asks of the two processors, once
    the output path is known. *)
Definition queued (cfg : Config.OutputPluginConfig) (paths : Paths) (outputPath : string)
    (v : Closure) : list AssetsCopyProcessor.Copy :=
  copies (localOptions cfg paths outputPath)
         (λ chunk, bool_decide (entryChunk v = Some chunk)) (localChunks v)
  ++ (if Js.truthy (remoteChunksOutput paths)
      then copies (remoteOptions cfg paths outputPath) (λ _, false) (remoteChunks v)
      else []).

(** * Properties *)

(** ** Serialization *)

Lemma quote_char_plain (c : ascii) :
  (32 ≤ nat_of_ascii c)%nat → nat_of_ascii c ≠ 34%nat → nat_of_ascii c ≠ 92%nat →
  Js.quote_char c = String c EmptyString.
Proof.
  intros H32 H34 H92. unfold Js.quote_char. cbv zeta.
  repeat (case_decide; [lia |]). done.
Qed.

(** A string with nothing to escape is serialized as itself between double
    quotes. *)
Lemma quote_plain (s : string) :
  plain s = true → Js.quote s = String Js.dquote (s +:+ String Js.dquote EmptyString).
Proof.
  intros H. unfold Js.quote. f_equal. f_equal.
  induction s as [| c s IH]; [done |].
  simpl in H. apply andb_true_iff in H as [Hc Hs].
  apply bool_decide_eq_true in Hc as (H32 & H34 & H92).
  simpl. rewrite quote_char_plain by done. simpl. by rewrite IH.
Qed.

(** ** Insertion-ordered sets *)

Lemma elem_of_Set_add (x y : nat) (s : list nat) :
  y ∈ Js.Set_add x s ↔ y = x ∨ y ∈ s.
Proof.
  unfold Js.Set_add. case_decide as Hx.
  - split; [by right | intros [-> | ?]; done].
  - rewrite elem_of_app, list_elem_of_singleton. tauto.
Qed.

Lemma NoDup_Set_add (x : nat) (s : list nat) : NoDup s → NoDup (Js.Set_add x s).
Proof.
  intros Hs. unfold Js.Set_add. case_decide as Hx; [done |].
  apply NoDup_app. split_and!; [done | | apply NoDup_singleton].
  intros y Hy ->%list_elem_of_singleton. done.
Qed.

Lemma elem_of_Set_add_all (l s : list nat) (y : nat) :
  y ∈ foldl (λ s x, Js.Set_add x s) s l ↔ y ∈ s ∨ y ∈ l.
Proof.
  revert s. induction l as [| x l IH]; intros s; simpl.
  - rewrite elem_of_nil. tauto.
  - rewrite IH, elem_of_Set_add, elem_of_cons. tauto.
Qed.

Lemma NoDup_Set_add_all (l s : list nat) :
  NoDup s → NoDup (foldl (λ s x, Js.Set_add x s) s l).
Proof.
  revert s. induction l as [| x l IH]; intros s Hs; simpl; [done |].
  by apply IH, NoDup_Set_add.
Qed.

(** ** Loops as folds *)

Lemma foldl_head {A B} (f : A → B → A) (a : A) (x : B) (l : list B) :
  foldl f a (x :: l) = foldl f (f a x) l.
Proof. done. Qed.

(** An invariant that may mention the part of the list already visited. *)
Lemma foldl_visited {A B} (P : list B → A → Prop) (f : A → B → A) (l : list B) (a : A) :
  P [] a →
  (∀ visited acc x, P visited acc → P (visited ++ [x]) (f acc x)) →
  P l (foldl f a l).
Proof.
  intros H0 Hstep. induction l as [| x l IH] using rev_ind; [done |].
  rewrite foldl_app. simpl. by apply Hstep.
Qed.

(** A loop invariant may rely on where in the list the iteration is. *)
Lemma foldl_prefixes {A B} (P : list B → A → Prop) (f : A → B → A) (l : list B) (a : A) :
  P [] a →
  (∀ visited x rest acc, l = visited ++ x :: rest → P visited acc → P (visited ++ [x]) (f acc x)) →
  P l (foldl f a l).
Proof.
  intros H0 Hstep.
  assert (∀ pre post, l = pre ++ post → P pre (foldl f a pre)) as H.
  { induction pre as [| x pre IH] using rev_ind; intros post Hl; [done |].
    rewrite foldl_app. simpl. apply (Hstep pre x post).
    - by rewrite Hl, <- app_assoc.
    - apply (IH ([x] ++ post)). by rewrite Hl, <- app_assoc. }
  apply (H l []). by rewrite app_nil_r.
Qed.

(** ** Rules that keep no state *)

Lemma RegExps_test_stateless (objects : RegExps) (ref : RegExpRef) (str : string) :
  global (objects ref) || sticky (objects ref) = false →
  (RegExps_test objects ref str).2 = objects.
Proof.
  intros H. unfold RegExps_test, RegExp_test. rewrite H.
  by destruct (if decide _ then _ else _).
Qed.

Lemma Rule_test_stateless (objects : RegExps) (r : Rule) (str : string) :
  Rule_stateless objects r = true → (Rule_test objects r str).2 = objects.
Proof.
  intros H. unfold Rule_test. destruct r as [s | ref]; [done |]. simpl in *.
  apply negb_true_iff in H. by apply RegExps_test_stateless.
Qed.

Lemma some_test_stateless (objects : RegExps) (rs : list Rule) (str : string) :
  forallb (Rule_stateless objects) rs = true → (some_test objects rs str).2 = objects.
Proof.
  induction rs as [| r rs IH]; [done |]. simpl.
  intros [Hr Hrs]%andb_true_iff.
  pose proof (Rule_test_stateless objects r str Hr) as Ht.
  destruct (Rule_test objects r str) as [b objects']. simpl in Ht. subst objects'.
  destruct b; [done |]. by apply IH.
Qed.

Lemma matchObject_stateless (objects : RegExps) (rules : Rules) (str : option string) :
  Rules_stateless objects rules = true → (matchObject objects rules str).2 = objects.
Proof.
  intros H. unfold matchObject, matchPart.
  destruct (Rules_truthy rules); simpl; [| done].
  destruct rules as [r | rs]; simpl in H.
  - pose proof (Rule_test_stateless objects r (Js.ToString str) H) as Ht.
    destruct (Rule_test objects r (Js.ToString str)) as [b objects']. simpl in *.
    by subst objects'.
  - pose proof (some_test_stateless objects rs (Js.ToString str) H) as Ht.
    destruct (some_test objects rs (Js.ToString str)) as [b objects']. simpl in *.
    by subst objects'.
Qed.

Lemma isLocalChunk_call_eq (k : Config.OutputPluginConfig) (chunkId : option string) :
  isLocalChunk_call k chunkId = (isLocalChunk k chunkId, isLocalChunk_after k chunkId).
Proof. unfold isLocalChunk, isLocalChunk_after. by destruct (isLocalChunk_call k chunkId). Qed.

(** With such rules a call of [isLocalChunk] leaves the configuration as it
    was. *)
Lemma isLocalChunk_after_stateless (k : Config.OutputPluginConfig) (chunkId : option string) :
  stateless k = true → isLocalChunk_after k chunkId = k.
Proof.
  unfold stateless, isLocalChunk_after, isLocalChunk_call. intros H.
  destruct k as [pl dev rules remote en objects]. simpl in *.
  destruct rules as [rules |]; simpl.
  - pose proof (matchObject_stateless objects rules chunkId H) as Hm.
    destruct (matchObject objects rules chunkId) as [b objects']. simpl in *.
    by subst objects'.
  - by destruct (matchObject objects (ManyRules []) chunkId) eqn:Hm; injection Hm as _ <-.
Qed.

Section Classification.
Variable cfg : Config.OutputPluginConfig.
Variable compilation : Compilation.

Abbreviation closure := (closure compilation).
Abbreviation identity := (identity compilation).
Abbreviation classifyChunk := (classifyChunk compilation).
Abbreviation resolveSharedChunk := (resolveSharedChunk compilation).
Abbreviation secondLoop := (secondPass compilation).
Abbreviation FirstPassInv := (FirstPassInv compilation).
Abbreviation RuleInv := (RuleInv cfg compilation).
Abbreviation Justified := (Justified cfg compilation).
Abbreviation OriginInv := (OriginInv compilation).
Abbreviation PartitionInv := (PartitionInv compilation).
Abbreviation first := (firstPass cfg compilation initial).
Abbreviation loop := (firstLoop cfg compilation initial).

(** *** The first loop *)

(** What one iteration does, by cases. *)
Lemma classifyChunk_cases (k : Config.OutputPluginConfig) (S : list ChunkRef)
    (v : Closure) (c : ChunkRef) :
  (c ∈ S ∧ classifyChunk (S, v, k) c = (S, v, k))
  ∨ ((c ∉ S) ∧ ∃ S',
       (∀ y, y ∈ S' ↔ y ∈ S ∨ (y ∈ closure c ∧ y ≠ c))
       ∧ (NoDup S → NoDup S')
       ∧ ((entryChunk v = Some c
           ∧ classifyChunk (S, v, k) c = (S', push_local c v, k))
          ∨ (entryChunk v ≠ Some c ∧ isLocalChunk k (identity c) = true
             ∧ classifyChunk (S, v, k) c
               = (S', push_local c v, isLocalChunk_after k (identity c)))
          ∨ (entryChunk v ≠ Some c ∧ isLocalChunk k (identity c) = false
             ∧ classifyChunk (S, v, k) c
               = (S', push_remote c v, isLocalChunk_after k (identity c))))).
Proof.
  unfold OutputPlugin.classifyChunk. destruct (decide (c ∈ S)) as [Hin | Hin]; [by left |].
  right. split; [done |].
  exists (foldl (λ s sharedChunk, Js.Set_add sharedChunk s) S
                (filter (λ sharedChunk, sharedChunk ≠ c) (closure c))).
  split; [| split; [apply NoDup_Set_add_all |]].
  - intros y. rewrite elem_of_Set_add_all, list_elem_of_filter. tauto.
  - case_bool_decide as He; [left; eauto |].
    rewrite isLocalChunk_call_eq.
    destruct (isLocalChunk k (identity c)) eqn:Hl; [right; left; eauto | right; right; eauto].
Qed.

(** The cases, for what does not depend on the answer of the rules. *)
Lemma classifyChunk_pushes (k : Config.OutputPluginConfig) (S : list ChunkRef)
    (v : Closure) (c : ChunkRef) :
  (c ∈ S ∧ classifyChunk (S, v, k) c = (S, v, k))
  ∨ ((c ∉ S) ∧ ∃ S' k',
       (∀ y, y ∈ S' ↔ y ∈ S ∨ (y ∈ closure c ∧ y ≠ c))
       ∧ (NoDup S → NoDup S')
       ∧ (classifyChunk (S, v, k) c = (S', push_local c v, k')
          ∨ (entryChunk v ≠ Some c
             ∧ classifyChunk (S, v, k) c = (S', push_remote c v, k')))).
Proof.
  destruct (classifyChunk_cases k S v c)
    as [? | (Hin & S' & HS' & Hnd & [[_ H] | [(_ & _ & H) | (He & _ & H)]])];
    [by left | right; split; [done |]; eauto 10 ..].
Qed.

Lemma entryChunk_classifyChunk acc (c : ChunkRef) :
  entryChunk (classifyChunk acc c).1.2 = entryChunk acc.1.2.
Proof.
  destruct acc as [[S v] k].
  destruct (classifyChunk_pushes k S v c)
    as [[_ ->] | (_ & S' & k' & _ & _ & [-> | [_ ->]])]; done.
Qed.

Lemma FirstPassInv_step e visited acc c :
  FirstPassInv e visited acc.1 → FirstPassInv e (visited ++ [c]) (classifyChunk acc c).1.
Proof.
  destruct acc as [[S v] k]. intros [He Hnd Htot Hrem Hsh].
  simpl in He, Hnd, Htot, Hrem, Hsh.
  destruct (classifyChunk_pushes k S v c)
    as [[Hin ->] | (Hin & S' & k' & HS' & Hnd' & [-> | [Hne ->]])].
  - split; simpl; try done.
    intros y [Hy | ->%list_elem_of_singleton]%elem_of_app; auto.
  - split; simpl; auto.
    + intros y [Hy | ->%list_elem_of_singleton]%elem_of_app.
      * rewrite HS', elem_of_app. destruct (Htot y Hy) as [? | [? | ?]]; auto.
      * right; left. apply elem_of_app. right. by apply list_elem_of_singleton.
    + intros x y Hx Hy Hxy. apply HS'.
      rewrite !elem_of_app, list_elem_of_singleton in Hx.
      destruct (decide (x = c)) as [-> | Hxc]; [by right |].
      left. apply (Hsh x y); [| done | done].
      apply elem_of_app. destruct Hx as [[? | ?] | ?]; [by left | done | by right].
  - split; simpl; auto.
    + intros y [Hy | ->%list_elem_of_singleton]%elem_of_app.
      * rewrite HS', elem_of_app. destruct (Htot y Hy) as [? | [? | ?]]; auto.
      * right; right. apply elem_of_app. right. by apply list_elem_of_singleton.
    + intros y [Hy | ->%list_elem_of_singleton]%elem_of_app; [auto | congruence].
    + intros x y Hx Hy Hxy. apply HS'.
      rewrite !elem_of_app, list_elem_of_singleton in Hx.
      destruct (decide (x = c)) as [-> | Hxc]; [by right |].
      left. apply (Hsh x y); [| done | done].
      apply elem_of_app. destruct Hx as [? | [? | ?]]; [by left | by right | done].
Qed.

Lemma firstPass_inv :
  FirstPassInv (findEntryChunk cfg compilation) (compilation_chunks compilation) first.
Proof.
  unfold firstPass, firstLoop.
  apply (foldl_visited (λ visited acc,
           FirstPassInv (findEntryChunk cfg compilation) visited acc.1)).
  - split; simpl; try done.
    + apply NoDup_nil_2.
    + intros c Hc. by apply elem_of_nil in Hc.
    + intros c Hc. by apply elem_of_nil in Hc.
    + intros c y Hc. by apply elem_of_nil in Hc.
  - intros visited acc x. apply FirstPassInv_step.
Qed.

Lemma OriginInv_step visited acc c :
  OriginInv visited acc.1 → OriginInv (visited ++ [c]) (classifyChunk acc c).1.
Proof.
  destruct acc as [[S v] k]. intros [Hsh Hpu]. simpl in Hsh, Hpu.
  destruct (classifyChunk_pushes k S v c)
    as [[Hin ->] | (Hin & S' & k' & HS' & _ & [-> | [_ ->]])];
    split; simpl.
  - done.
  - intros p Hp. apply elem_of_app. left. by apply Hpu.
  - intros s [Hs | [Hs Hne]]%HS'.
    + destruct (Hsh s Hs) as (x & Hx & Hsx & Hne). exists x. split; [| done].
      rewrite !elem_of_app in *. tauto.
    + exists c. split; [| done]. rewrite !elem_of_app, list_elem_of_singleton. tauto.
  - intros p. rewrite !elem_of_app, list_elem_of_singleton.
    intros [[Hp | ->] | Hp]; [left; apply Hpu, elem_of_app; tauto | tauto |
                              left; apply Hpu, elem_of_app; tauto].
  - intros s [Hs | [Hs Hne]]%HS'.
    + destruct (Hsh s Hs) as (x & Hx & Hsx & Hne). exists x. split; [| done].
      rewrite !elem_of_app in *. tauto.
    + exists c. split; [| done]. rewrite !elem_of_app, list_elem_of_singleton. tauto.
  - intros p. rewrite !elem_of_app, list_elem_of_singleton.
    intros [Hp | [Hp | ->]]; [left; apply Hpu, elem_of_app; tauto |
                              left; apply Hpu, elem_of_app; tauto | tauto].
Qed.

Lemma firstPass_origin : OriginInv (compilation_chunks compilation) first.
Proof.
  unfold firstPass, firstLoop.
  apply (foldl_visited (λ visited acc, OriginInv visited acc.1)).
  - split; simpl; intros x Hx; by apply elem_of_nil in Hx.
  - intros visited acc x. apply OriginInv_step.
Qed.

(** *** The second loop *)

Lemma isUsedByLocalChunk_true (v : Closure) (s : ChunkRef) :
  isUsedByLocalChunk compilation v s = true
  ↔ ∃ l, l ∈ localChunks v ∧ s ∈ closure l.
Proof.
  unfold isUsedByLocalChunk. rewrite existsb_exists. split.
  - intros (l & Hl%list_elem_of_In & Hs%bool_decide_eq_true). eauto.
  - intros (l & Hl & Hs). exists l. split; [by apply list_elem_of_In |].
    by apply bool_decide_eq_true.
Qed.

Lemma resolveSharedChunk_cases (v : Closure) (k : Config.OutputPluginConfig) (s : ChunkRef) :
  (isUsedByLocalChunk compilation v s = true
   ∧ resolveSharedChunk (v, k) s = (push_local s v, k))
  ∨ (isUsedByLocalChunk compilation v s = false ∧ isLocalChunk k (identity s) = true
     ∧ resolveSharedChunk (v, k) s = (push_local s v, isLocalChunk_after k (identity s)))
  ∨ (isUsedByLocalChunk compilation v s = false ∧ isLocalChunk k (identity s) = false
     ∧ resolveSharedChunk (v, k) s = (push_remote s v, isLocalChunk_after k (identity s))).
Proof.
  unfold OutputPlugin.resolveSharedChunk.
  destruct (isUsedByLocalChunk compilation v s); [by left |].
  rewrite isLocalChunk_call_eq.
  destruct (isLocalChunk k (identity s)); [right; left | right; right]; done.
Qed.

(** The cases, for what does not depend on the answer of the rules. *)
Lemma resolveSharedChunk_pushes acc (s : ChunkRef) :
  (∃ k', resolveSharedChunk acc s = (push_local s acc.1, k'))
  ∨ (∃ k', resolveSharedChunk acc s = (push_remote s acc.1, k')).
Proof.
  destruct acc as [v k].
  destruct (resolveSharedChunk_cases v k s) as [[_ H] | [(_ & _ & H) | (_ & _ & H)]];
    rewrite H; eauto.
Qed.

Lemma secondLoop_cons acc s shared :
  secondLoop acc (s :: shared) = secondLoop (resolveSharedChunk acc s) shared.
Proof. done. Qed.

Lemma secondLoop_app acc pre s post :
  secondLoop acc (pre ++ s :: post)
  = secondLoop (resolveSharedChunk (secondLoop acc pre) s) post.
Proof. unfold secondPass. by rewrite foldl_app. Qed.

Lemma entryChunk_secondLoop shared acc :
  entryChunk (secondLoop acc shared).1 = entryChunk acc.1.
Proof.
  revert acc. induction shared as [| s shared IH]; intros acc; [done |].
  rewrite secondLoop_cons, IH.
  destruct (resolveSharedChunk_pushes acc s) as [[k' ->] | [k' ->]]; done.
Qed.

(** Both arrays only grow. *)
Lemma localChunks_secondLoop shared acc x :
  x ∈ localChunks acc.1 → x ∈ localChunks (secondLoop acc shared).1.
Proof.
  revert acc. induction shared as [| s shared IH]; intros acc Hx; [done |].
  rewrite secondLoop_cons. apply IH.
  destruct (resolveSharedChunk_pushes acc s) as [[k' ->] | [k' ->]]; simpl; [| done].
  apply elem_of_app. by left.
Qed.

Lemma remoteChunks_secondLoop shared acc x :
  x ∈ remoteChunks acc.1 → x ∈ remoteChunks (secondLoop acc shared).1.
Proof.
  revert acc. induction shared as [| s shared IH]; intros acc Hx; [done |].
  rewrite secondLoop_cons. apply IH.
  destruct (resolveSharedChunk_pushes acc s) as [[k' ->] | [k' ->]]; simpl; [done |].
  apply elem_of_app. by left.
Qed.

(** What the second loop adds to an array is a chunk of the set. *)
Lemma localChunks_secondLoop_inv shared acc x :
  x ∈ localChunks (secondLoop acc shared).1 → x ∈ localChunks acc.1 ∨ x ∈ shared.
Proof.
  revert acc. induction shared as [| s shared IH]; intros acc Hx; [by left |].
  rewrite secondLoop_cons in Hx. apply IH in Hx. rewrite elem_of_cons.
  destruct (resolveSharedChunk_pushes acc s) as [[k' Hr] | [k' Hr]];
    rewrite Hr in Hx; simpl in Hx; [| tauto].
  rewrite elem_of_app, list_elem_of_singleton in Hx. tauto.
Qed.

Lemma remoteChunks_secondLoop_inv shared acc x :
  x ∈ remoteChunks (secondLoop acc shared).1 → x ∈ remoteChunks acc.1 ∨ x ∈ shared.
Proof.
  revert acc. induction shared as [| s shared IH]; intros acc Hx; [by left |].
  rewrite secondLoop_cons in Hx. apply IH in Hx. rewrite elem_of_cons.
  destruct (resolveSharedChunk_pushes acc s) as [[k' Hr] | [k' Hr]];
    rewrite Hr in Hx; simpl in Hx; [tauto |].
  rewrite elem_of_app, list_elem_of_singleton in Hx. tauto.
Qed.

(** The chunk reaches the array its iteration pushes it to; the test of the
    rules is the one made with the configuration as the iterations before
    left it. *)
Lemma secondLoop_at pre s post acc :
  let before := secondLoop acc pre in
  let final := secondLoop acc (pre ++ s :: post) in
  if isUsedByLocalChunk compilation before.1 s then s ∈ localChunks final.1
  else if isLocalChunk before.2 (identity s) then s ∈ localChunks final.1
  else s ∈ remoteChunks final.1.
Proof.
  intros before final. subst final. rewrite secondLoop_app. fold before.
  destruct before as [v k]. cbn [fst snd].
  assert (∀ k', s ∈ localChunks (secondLoop (push_local s v, k') post).1) as HL.
  { intros k'. apply localChunks_secondLoop. simpl. apply elem_of_app. right.
    by apply list_elem_of_singleton. }
  destruct (resolveSharedChunk_cases v k s)
    as [[Hu ->] | [(Hu & Hl & ->) | (Hu & Hl & ->)]]; rewrite Hu; [done | by rewrite Hl |].
  rewrite Hl. apply remoteChunks_secondLoop. simpl. apply elem_of_app. right.
  by apply list_elem_of_singleton.
Qed.

(** And it reaches that array only: in the other one it is only if it was
    there before the loop. *)
Lemma secondLoop_only pre s post acc :
  NoDup (pre ++ s :: post) →
  let before := secondLoop acc pre in
  let final := secondLoop acc (pre ++ s :: post) in
  if isUsedByLocalChunk compilation before.1 s
  then s ∈ remoteChunks final.1 → s ∈ remoteChunks acc.1
  else if isLocalChunk before.2 (identity s)
       then s ∈ remoteChunks final.1 → s ∈ remoteChunks acc.1
       else s ∈ localChunks final.1 → s ∈ localChunks acc.1.
Proof.
  intros Hnd before final. subst final. rewrite secondLoop_app. fold before.
  apply NoDup_app in Hnd as (_ & Hpre & [Hpost _]%NoDup_cons).
  assert (s ∉ pre) as Hs.
  { intros Hin. apply (Hpre s Hin), elem_of_cons. by left. }
  assert (s ∈ remoteChunks before.1 → s ∈ remoteChunks acc.1) as HR.
  { intros [? | ?]%remoteChunks_secondLoop_inv; done. }
  assert (s ∈ localChunks before.1 → s ∈ localChunks acc.1) as HL.
  { intros [? | ?]%localChunks_secondLoop_inv; done. }
  destruct before as [v k]. cbn [fst snd] in *.
  destruct (resolveSharedChunk_cases v k s)
    as [[Hu ->] | [(Hu & Hl & ->) | (Hu & Hl & ->)]]; rewrite Hu, ?Hl.
  - intros [? | ?]%remoteChunks_secondLoop_inv; [auto | done].
  - intros [? | ?]%remoteChunks_secondLoop_inv; [auto | done].
  - intros [? | ?]%localChunks_secondLoop_inv; [auto | done].
Qed.

(** Every chunk of the set ends up in one of the arrays. *)
Lemma secondLoop_total shared acc s :
  s ∈ shared →
  s ∈ localChunks (secondLoop acc shared).1 ∨ s ∈ remoteChunks (secondLoop acc shared).1.
Proof.
  intros (pre & post & ->)%list_elem_of_split.
  pose proof (secondLoop_at pre s post acc) as H. simpl in H.
  destruct (isUsedByLocalChunk compilation (secondLoop acc pre).1 s); [by left |].
  destruct (isLocalChunk _ (identity s)); [by left | by right].
Qed.

Lemma classify_secondLoop v :
  classify cfg compilation v
  = (secondLoop ((firstPass cfg compilation v).2, (firstLoop cfg compilation v).2)
                (firstPass cfg compilation v).1).1.
Proof. done. Qed.

Lemma entryChunk_classify v :
  entryChunk (classify cfg compilation v) = findEntryChunk cfg compilation.
Proof.
  rewrite classify_secondLoop, entryChunk_secondLoop. unfold firstPass, firstLoop. simpl.
  generalize (compilation_chunks compilation).
  intros l. induction l as [| x l IH] using rev_ind; [done |].
  rewrite foldl_app. simpl. by rewrite entryChunk_classifyChunk.
Qed.

(** No chunk of the graph is left out. *)
Lemma classify_total c :
  c ∈ compilation_chunks compilation →
  c ∈ localChunks (classify cfg compilation initial)
  ∨ c ∈ remoteChunks (classify cfg compilation initial).
Proof.
  intros Hc. rewrite classify_secondLoop.
  destruct firstPass_inv as [_ _ Htot _ _].
  destruct (Htot c Hc) as [Hs | [Hl | Hr]].
  - by apply secondLoop_total.
  - left. by apply localChunks_secondLoop.
  - right. by apply remoteChunks_secondLoop.
Qed.

(** What the first loop classified local pulls its initial chunks along. *)
Lemma initial_chunks_of_first_pass_local l s :
  l ∈ localChunks first.2 →
  s ∈ closure l →
  s ∈ localChunks (classify cfg compilation initial).
Proof.
  intros Hl Hs. rewrite classify_secondLoop.
  destruct firstPass_inv as [_ _ _ _ Hsh].
  destruct (decide (s = l)) as [-> | Hne]; [by apply localChunks_secondLoop |].
  assert (s ∈ first.1) as Hin.
  { apply (Hsh l s); [apply elem_of_app; by left | done | done]. }
  apply list_elem_of_split in Hin as (pre & post & Hsplit). rewrite Hsplit.
  pose proof (secondLoop_at pre s post (first.2, loop.2)) as H.
  simpl in H.
  rewrite (proj2 (isUsedByLocalChunk_true _ s)) in H; [done |].
  exists l. split; [by apply localChunks_secondLoop | done].
Qed.

(** *** Mutual initial chunks *)

Section Mutual.
Hypothesis Hnodup : NoDup (compilation_chunks compilation).
Hypothesis Hmutual : ∀ c x, c ∈ compilation_chunks compilation → x ∈ closure c →
                            x ∈ compilation_chunks compilation ∧ c ∈ closure x.

Lemma PartitionInv_step e visited c rest acc :
  compilation_chunks compilation = visited ++ c :: rest →
  FirstPassInv e visited acc.1 →
  OriginInv visited acc.1 →
  PartitionInv acc.1 →
  PartitionInv (classifyChunk acc c).1.
Proof.
  intros Hall [_ _ _ _ Hsh] [_ Hpu] [HL HR Hdis Hap Hin].
  destruct acc as [[S v] k]. simpl in Hsh, Hpu, HL, HR, Hdis, Hap, Hin.
  assert (c ∈ compilation_chunks compilation) as Hc.
  { rewrite Hall, elem_of_app, elem_of_cons. tauto. }
  assert (c ∉ visited) as Hfresh.
  { rewrite Hall in Hnodup. apply NoDup_app in Hnodup as (_ & Hv & _).
    intros Hcv. apply (Hv c Hcv), elem_of_cons. by left. }
  assert (c ∉ localChunks v ++ remoteChunks v) as Hnew.
  { intros Hp. by apply Hfresh, Hpu. }
  rewrite elem_of_app in Hnew.
  destruct (classifyChunk_pushes k S v c)
    as [[HcS ->] | (HcS & S' & k' & HS' & _ & Hpush)]; [done |].
  assert (∀ p, p ∈ localChunks v ++ remoteChunks v → p ∉ S') as Hold.
  { intros p Hp [HpS | [Hpc Hne]]%HS'; [by apply (Hap p) |].
    apply HcS, (Hsh p c); [done | by apply (Hmutual c p) | done]. }
  assert (c ∉ S') as HcS'.
  { intros [? | [_ ?]]%HS'; done. }
  assert (∀ s, s ∈ S' → s ∈ compilation_chunks compilation) as Hin'.
  { intros s [Hs | [Hs _]]%HS'; [by apply Hin | by apply (Hmutual c s)]. }
  destruct Hpush as [-> | [_ ->]]; split; simpl; try done.
  - apply NoDup_app. split_and!; [done | | apply NoDup_singleton].
    intros x Hx ->%list_elem_of_singleton. tauto.
  - intros p [Hp | ->%list_elem_of_singleton]%elem_of_app; [by apply Hdis | tauto].
  - intros p. rewrite !elem_of_app, list_elem_of_singleton.
    intros [[Hp | ->] | Hp]; [apply Hold, elem_of_app; tauto | done |
                              apply Hold, elem_of_app; tauto].
  - apply NoDup_app. split_and!; [done | | apply NoDup_singleton].
    intros x Hx ->%list_elem_of_singleton. tauto.
  - intros p Hp [Hr | ->%list_elem_of_singleton]%elem_of_app; [by apply (Hdis p) | tauto].
  - intros p. rewrite !elem_of_app, list_elem_of_singleton.
    intros [Hp | [Hp | ->]]; [apply Hold, elem_of_app; tauto |
                              apply Hold, elem_of_app; tauto | done].
Qed.

Lemma firstPass_partition : PartitionInv first.
Proof.
  pose (e := findEntryChunk cfg compilation).
  enough (FirstPassInv e (compilation_chunks compilation) first
          ∧ OriginInv (compilation_chunks compilation) first
          ∧ PartitionInv first) as (_ & _ & H) by done.
  unfold firstPass, firstLoop.
  apply (foldl_prefixes
           (λ visited acc, FirstPassInv e visited acc.1
                           ∧ OriginInv visited acc.1 ∧ PartitionInv acc.1)).
  - split_and!; split; simpl; try done; try apply NoDup_nil_2;
      try (intros x Hx; by apply elem_of_nil in Hx);
      intros x y Hx; by apply elem_of_nil in Hx.
  - intros visited x rest acc Hall (H1 & H2 & H3). split_and!.
    + by apply FirstPassInv_step.
    + by apply OriginInv_step.
    + by apply (PartitionInv_step e visited x rest).
Qed.

End Mutual.

(** The second loop keeps two arrays without repetition and without common
    chunk that way, when the set brings nothing they already hold. *)
Lemma secondLoop_partition shared acc :
  NoDup shared →
  NoDup (localChunks acc.1) → NoDup (remoteChunks acc.1) →
  (∀ p, p ∈ localChunks acc.1 → p ∉ remoteChunks acc.1) →
  (∀ p, p ∈ localChunks acc.1 ++ remoteChunks acc.1 → p ∉ shared) →
  NoDup (localChunks (secondLoop acc shared).1)
  ∧ NoDup (remoteChunks (secondLoop acc shared).1)
  ∧ ∀ p, p ∈ localChunks (secondLoop acc shared).1 →
         p ∉ remoteChunks (secondLoop acc shared).1.
Proof.
  revert acc. induction shared as [| s shared IH]; intros acc Hnd HL HR Hdis Hap; [done |].
  apply NoDup_cons in Hnd as [Hs Hnd].
  assert (s ∉ localChunks acc.1 ++ remoteChunks acc.1) as Hnew.
  { intros Hp. apply (Hap s Hp), elem_of_cons. by left. }
  rewrite elem_of_app in Hnew.
  assert (∀ p, p ∈ localChunks acc.1 ++ remoteChunks acc.1 → p ∉ shared) as Hap'.
  { intros p Hp Hin. apply (Hap p Hp), elem_of_cons. by right. }
  rewrite secondLoop_cons.
  destruct (resolveSharedChunk_pushes acc s) as [[k' ->] | [k' ->]];
    apply IH; simpl; try done.
  - apply NoDup_app. split_and!; [done | | apply NoDup_singleton].
    intros x Hx ->%list_elem_of_singleton. tauto.
  - intros p [Hp | ->%list_elem_of_singleton]%elem_of_app; [by apply Hdis | tauto].
  - intros p. rewrite !elem_of_app, list_elem_of_singleton.
    intros [[Hp | ->] | Hp]; [apply Hap', elem_of_app; tauto | done |
                              apply Hap', elem_of_app; tauto].
  - apply NoDup_app. split_and!; [done | | apply NoDup_singleton].
    intros x Hx ->%list_elem_of_singleton. tauto.
  - intros p Hp [Hr | ->%list_elem_of_singleton]%elem_of_app; [by apply (Hdis p) | tauto].
  - intros p. rewrite !elem_of_app, list_elem_of_singleton.
    intros [Hp | [Hp | ->]]; [apply Hap', elem_of_app; tauto |
                              apply Hap', elem_of_app; tauto | done].
Qed.

(** *** Rules that keep no state *)

Section Stateless.
Hypothesis Hstateless : stateless cfg = true.

Lemma RuleInv_step e acc c :
  entryChunk acc.1.2 = e →
  RuleInv e (acc.1.2, acc.2) →
  RuleInv e ((classifyChunk acc c).1.2, (classifyChunk acc c).2).
Proof.
  destruct acc as [[S v] k]. cbn [fst snd]. intros He [Hk Hloc Hrem].
  cbn [fst snd] in Hk, Hloc, Hrem. subst k.
  destruct (classifyChunk_cases cfg S v c)
    as [[_ ->] | (_ & S' & _ & _ & [[Hc ->] | [(Hc & Hl & ->) | (Hc & Hl & ->)]])];
    split; cbn [fst snd]; try done; try (by apply isLocalChunk_after_stateless); simpl.
  - intros y [Hy | ->%list_elem_of_singleton]%elem_of_app; [auto | left; congruence].
  - intros y [Hy | ->%list_elem_of_singleton]%elem_of_app; auto.
  - intros y [Hy | ->%list_elem_of_singleton]%elem_of_app; auto.
Qed.

Lemma firstLoop_rules : RuleInv (findEntryChunk cfg compilation) (first.2, loop.2).
Proof.
  pose (e := findEntryChunk cfg compilation).
  enough (entryChunk loop.1.2 = e ∧ RuleInv e (loop.1.2, loop.2)) as [_ H] by done.
  unfold firstLoop.
  apply (foldl_visited (λ _ acc, entryChunk acc.1.2 = e ∧ RuleInv e (acc.1.2, acc.2))).
  - split; [done |]. split; cbn [fst snd]; [done | |];
      intros x Hx; by apply elem_of_nil in Hx.
  - intros _ acc x [He H]. split; [by rewrite entryChunk_classifyChunk |].
    by apply RuleInv_step.
Qed.

Lemma secondLoop_rules e shared acc :
  acc.2 = cfg →
  Justified e acc.1 →
  (∀ c, c ∈ remoteChunks acc.1 → isLocalChunk cfg (identity c) = false) →
  (secondLoop acc shared).2 = cfg
  ∧ Justified e (secondLoop acc shared).1
  ∧ ∀ c, c ∈ remoteChunks (secondLoop acc shared).1 →
         isLocalChunk cfg (identity c) = false.
Proof.
  revert acc. induction shared as [| s shared IH]; intros [v k] Hk Hv Hrem; [done |].
  cbn [fst snd] in Hk, Hv, Hrem. subst k.
  rewrite secondLoop_cons.
  destruct (resolveSharedChunk_cases v cfg s)
    as [[Hu ->] | [(Hu & Hl & ->) | (Hu & Hl & ->)]];
    apply IH; cbn [fst snd]; try done; try (by apply isLocalChunk_after_stateless).
  - intros x [Hx | ->%list_elem_of_singleton]%elem_of_app.
    + destruct (Hv x Hx) as [? | [? | (l & Hlin & Hxl)]]; auto.
      right; right. exists l. split; [| done]. simpl. apply elem_of_app. by left.
    + apply isUsedByLocalChunk_true in Hu as (l & Hlin & Hxl).
      right; right. exists l. split; [| done]. simpl. apply elem_of_app. by left.
  - intros x [Hx | ->%list_elem_of_singleton]%elem_of_app; [| auto].
    destruct (Hv x Hx) as [? | [? | (l & Hlin & Hxl)]]; auto.
    right; right. exists l. split; [| done]. simpl. apply elem_of_app. by left.
  - simpl. intros x [Hx | ->%list_elem_of_singleton]%elem_of_app; auto.
Qed.

Lemma classify_rules :
  Justified (findEntryChunk cfg compilation) (classify cfg compilation initial)
  ∧ ∀ c, c ∈ remoteChunks (classify cfg compilation initial) →
         isLocalChunk cfg (identity c) = false.
Proof.
  destruct firstLoop_rules as [Hk Hloc Hrem]. cbn [fst snd] in Hk, Hloc, Hrem.
  destruct (secondLoop_rules (findEntryChunk cfg compilation) first.1 (first.2, loop.2))
    as (_ & HJ & HR); [done | | done | done].
  intros x Hx. destruct (Hloc x Hx); auto.
Qed.


End Stateless.

End Classification.
(** Case analysis on membership in a list given by its elements. *)
Ltac among :=
  repeat match goal with
         | H : _ ∈ [] |- _ => by apply elem_of_nil in H
         | H : _ ∈ _ :: _ |- _ => apply elem_of_cons in H as [-> | H]
         end.

(** A decidable fact about lists that evaluate to their elements. *)
Ltac listed :=
  match goal with |- ?P => apply (bool_decide_unpack P); vm_compute; exact I end.

(** ** The classification *)

(** The set handed to the second loop has no repetition: each shared chunk
    is resolved once. *)
Lemma sharedChunks_NoDup cfg compilation :
  NoDup (firstPass cfg compilation initial).1.
Proof. apply (firstPass_inv cfg compilation). Qed.

(** C1, on the build [Builds.dependOn]: [settings] is pushed to
    [remoteChunks] by the first loop, is then found among the initial chunks
    of [profile], and is pushed to [localChunks] by the second loop; it ends
    up in both arrays. *)
Theorem settings_local_and_remote :
  let v := classify Builds.dependOn_config Builds.dependOn initial in
  findEntryChunk Builds.dependOn_config Builds.dependOn = Some 0
  ∧ localChunks v = [0; 2; 1]
  ∧ remoteChunks v = [1].
Proof. by vm_compute. Qed.

(** C2, on the build [Builds.vendorFirst]: the entry chunk [main] is among
    the initial chunks of [vendor], which is iterated first, so [main] is left
    to the second loop; that loop has no entry test, and [main] is pushed to
    [remoteChunks]. *)
Theorem deferred_entry_is_remote :
  let v := classify (Builds.configure None None) Builds.vendorFirst initial in
  entryChunk v = Some 1
  ∧ localChunks v = []
  ∧ remoteChunks v = [0; 1].
Proof. by vm_compute. Qed.

(** C3 as stated fails on the build [Builds.lateRule]: [vendor] is in the
    shared set and among the initial chunks of [shared-ui], which is
    classified local, and yet [vendor] is not classified local. *)
Lemma shared_of_later_local_is_remote :
  let first := firstPass Builds.lateRule_config Builds.lateRule initial in
  let v := classify Builds.lateRule_config Builds.lateRule initial in
  2 ∈ first.1
  ∧ 3 ∈ localChunks v
  ∧ 2 ∈ closure Builds.lateRule 3
  ∧ 2 ∉ localChunks v.
Proof.
  vm_compute. split_and!; [set_solver .. |].
  intros H. repeat (apply elem_of_cons in H as [H | H]; [done |]).
  by apply elem_of_nil in H.
Qed.

(** C3, amended: let [s] be a chunk of the shared set, and [before] the
    closure variables and the configuration when the second loop reaches [s]
    (the first loop is over, and so are the iterations for the shared chunks
    ahead of [s]).  If some chunk of [localChunks] at that point has [s] among
    its initial chunks, the loop classifies [s] local; otherwise, if the rules
    as they stand at that point answer true for the identity of [s], it
    classifies [s] local; otherwise it classifies [s] remote.  Classified
    local: [s] ends up in [localChunks], and it is in [remoteChunks] only if
    the first loop had put it there; classified remote: the other way
    round. *)
Theorem shared_chunk_resolution cfg compilation pre s post :
  (firstPass cfg compilation initial).1 = pre ++ s :: post →
  let first := firstPass cfg compilation initial in
  let before := secondPass compilation (first.2, (firstLoop cfg compilation initial).2) pre in
  let final := classify cfg compilation initial in
  let used := ∃ l, l ∈ localChunks before.1 ∧ s ∈ closure compilation l in
  let matches := isLocalChunk before.2 (identity compilation s) in
  let toLocal :=
    s ∈ localChunks final ∧ (s ∈ remoteChunks final → s ∈ remoteChunks first.2) in
  let toRemote :=
    s ∈ remoteChunks final ∧ (s ∈ localChunks final → s ∈ localChunks first.2) in
  (used → toLocal)
  ∧ (¬ used → matches = true → toLocal)
  ∧ (¬ used → matches = false → toRemote).
Proof.
  intros Hsplit first before final used matches toLocal toRemote.
  subst toLocal toRemote final first. rewrite classify_secondLoop, Hsplit.
  pose proof (secondLoop_at compilation pre s post
                ((firstPass cfg compilation initial).2,
                 (firstLoop cfg compilation initial).2)) as Hat.
  pose proof (secondLoop_only compilation pre s post
                ((firstPass cfg compilation initial).2,
                 (firstLoop cfg compilation initial).2)) as Honly.
  cbv zeta in Hat, Honly. fold before in Hat, Honly. fold matches in Hat, Honly.
  assert (NoDup (pre ++ s :: post)) as Hnd.
  { rewrite <- Hsplit. apply sharedChunks_NoDup. }
  specialize (Honly Hnd).
  destruct (isUsedByLocalChunk compilation before.1 s) eqn:Hu.
  - apply isUsedByLocalChunk_true in Hu. split_and!; [done | done ..].
  - assert (¬ used) as Hn.
    { intros Hused%isUsedByLocalChunk_true. congruence. }
    split_and!; [done | |]; intros _ Hl; rewrite Hl in Hat, Honly; done.
Qed.

Lemma shared_chunk_resolution_witness :
  let parted := classify (Builds.configure None None) Builds.split initial in
  let late := classify Builds.lateRule_config Builds.lateRule initial in
  (1 ∈ localChunks parted ∧ (1 ∈ remoteChunks parted → False))
  ∧ (3 ∈ localChunks late ∧ (3 ∈ remoteChunks late → False))
  ∧ (2 ∈ remoteChunks late ∧ (2 ∈ localChunks late → False)).
Proof.
  intros parted late.
  assert (∀ s, ¬ (∃ l, l ∈ [0] ∧ s ∈ closure Builds.lateRule l) ↔ s ∉ [0]) as Hfree.
  { intros s. split.
    - intros Hn Hs. apply Hn. exists 0. split; [listed | done].
    - intros Hs (l & Hl & Hin). among. done. }
  split; [| split].
  - pose proof (shared_chunk_resolution (Builds.configure None None) Builds.split [] 1 []
                  eq_refl) as H. cbv zeta in H. destruct H as (H & _ & _).
    destruct H as [Hin Honly]; [exists 0; split; listed |].
    split; [exact Hin |]. intros Hr. apply Honly in Hr. revert Hr. listed.
  - pose proof (shared_chunk_resolution Builds.lateRule_config Builds.lateRule [2] 3 []
                  eq_refl) as H. cbv zeta in H. destruct H as (_ & H & _).
    destruct H as [Hin Honly]; [apply (Hfree 3); listed | reflexivity |].
    split; [exact Hin |]. intros Hr. apply Honly in Hr. revert Hr. listed.
  - pose proof (shared_chunk_resolution Builds.lateRule_config Builds.lateRule [] 2 [3]
                  eq_refl) as H. cbv zeta in H. destruct H as (_ & _ & H).
    destruct H as [Hin Honly]; [apply (Hfree 2); listed | reflexivity |].
    split; [exact Hin |]. intros Hr. apply Honly in Hr. revert Hr. listed.
Defined.




(** ** No rules configured *)

Lemma isLocalChunk_call_unconfigured cfg chunkId :
  Config.localChunks cfg = None → isLocalChunk_call cfg chunkId = (false, cfg).
Proof.
  intros H. unfold isLocalChunk_call. rewrite H. simpl.
  destruct cfg. simpl in H. by subst.
Qed.

Lemma isLocalChunk_unconfigured cfg chunkId :
  Config.localChunks cfg = None → isLocalChunk cfg chunkId = false.
Proof. intros H. unfold isLocalChunk. by rewrite isLocalChunk_call_unconfigured. Qed.

Lemma filter_other_nil (c : ChunkRef) (l : list ChunkRef) :
  (∀ x, x ∈ l → x = c) → filter (λ x, x ≠ c) l = [].
Proof.
  induction l as [| y l IH]; intros H; [done |].
  rewrite filter_cons. case_decide as Hy.
  - destruct Hy. apply H, elem_of_cons. by left.
  - apply IH. intros x Hx. apply H, elem_of_cons. by right.
Qed.

(** Without rules and without sharing the first loop sorts the chunks by
    the entry test alone and leaves the shared set empty. *)
Lemma firstLoop_apart cfg compilation (l : list ChunkRef) (v : Closure) :
  Config.localChunks cfg = None →
  (∀ c x, c ∈ l → x ∈ closure compilation c → x = c) →
  foldl (classifyChunk compilation) ([], v, cfg) l
  = ([], {| entryGroup := entryGroup v; entryChunk := entryChunk v;
            localChunks := localChunks v ++ filter (λ c, entryChunk v = Some c) l;
            remoteChunks := remoteChunks v ++ filter (λ c, entryChunk v ≠ Some c) l |},
     cfg).
Proof.
  intros Hrules. revert v. induction l as [| c l IH]; intros v Hapart.
  - simpl. rewrite !app_nil_r. by destruct v.
  - assert (classifyChunk compilation ([], v, cfg) c
            = ([], (if bool_decide (entryChunk v = Some c)
                    then push_local c v else push_remote c v), cfg)) as Hstep.
    { unfold classifyChunk. rewrite decide_False by apply not_elem_of_nil.
      rewrite filter_other_nil, isLocalChunk_call_unconfigured by
        (done || (intros x Hx; apply (Hapart c); [apply elem_of_cons; by left | done])).
      by case_bool_decide. }
    rewrite foldl_head, Hstep, IH.
    + rewrite !filter_cons. case_bool_decide as He; simpl.
      * rewrite decide_True, decide_False by auto. by rewrite <- app_assoc.
      * rewrite decide_False, decide_True by auto. by rewrite <- app_assoc.
    + intros c' x Hc'. apply Hapart, elem_of_cons. by right.
Qed.

(** C10: when [localChunks] is left out of the configuration, the matcher is
    given the empty list of rules and matches no identity; then, in a graph
    where the initial chunks of a chunk are at most the chunk itself,
    [localChunks] holds the entry chunk alone and every other chunk of the
    graph is in [remoteChunks]. *)
Theorem unconfigured_localChunks cfg compilation :
  Config.localChunks cfg = None →
  Js.nullish (Config.localChunks cfg) (ManyRules []) = ManyRules []
  ∧ (∀ chunkId, isLocalChunk cfg chunkId = false)
  ∧ ((∀ c x, c ∈ compilation_chunks compilation → x ∈ closure compilation c → x = c) →
     let v := classify cfg compilation initial in
     localChunks v
       = filter (λ c, findEntryChunk cfg compilation = Some c) (compilation_chunks compilation)
     ∧ remoteChunks v
       = filter (λ c, findEntryChunk cfg compilation ≠ Some c) (compilation_chunks compilation)
     ∧ ∀ c, c ∈ compilation_chunks compilation → findEntryChunk cfg compilation ≠ Some c →
            c ∈ remoteChunks v ∧ c ∉ localChunks v).
Proof.
  intros Hnone. split; [by rewrite Hnone |].
  split; [intros chunkId; by apply isLocalChunk_unconfigured |].
  intros Hapart v. subst v. unfold classify, classification, firstLoop.
  rewrite firstLoop_apart by done.
  simpl. split_and!; [done | done |].
  intros c Hc He. rewrite !list_elem_of_filter. tauto.
Qed.

Lemma unconfigured_localChunks_witness :
  let v := classify (Builds.configure None None) Builds.apart initial in
  localChunks v = [0] ∧ remoteChunks v = [1; 2].
Proof.
  destruct (unconfigured_localChunks (Builds.configure None None) Builds.apart)
    as (_ & _ & H); [reflexivity |].
  destruct H as (Hl & Hr & _).
  - vm_compute. intros c x Hc Hx.
    repeat (apply elem_of_cons in Hc as [-> | Hc];
            [repeat (apply elem_of_cons in Hx as [-> | Hx]; [done |]);
             by apply elem_of_nil in Hx |]).
    by apply elem_of_nil in Hc.
  - split; [exact Hl | exact Hr].
Defined.


(** ** The constructor *)

(** C6: construction throws the error naming the missing option when
    [platform] is left out or empty, and yields the plugin when [platform]
    is a non-empty string. *)
Theorem constructor_platform cfg :
  (Config.platform cfg = None ∨ Config.platform cfg = Some "" →
   constructor cfg = inl "Missing `platform` option in `OutputPlugin`")
  ∧ (∀ p, Config.platform cfg = Some p → p ≠ "" →
          constructor cfg = inr {| config := cfg |}).
Proof.
  unfold constructor. split.
  - intros [-> | ->]; done.
  - intros p -> Hp. simpl. by rewrite bool_decide_eq_true_2.
Qed.

Lemma constructor_platform_witness :
  constructor Builds.noPlatform = inl "Missing `platform` option in `OutputPlugin`"
  ∧ constructor (Builds.configure None None)
    = inr {| config := Builds.configure None None |}.
Proof.
  split.
  - apply (proj1 (constructor_platform Builds.noPlatform)). right. reflexivity.
  - apply (proj2 (constructor_platform (Builds.configure None None)) "ios").
    + reflexivity.
    + discriminate.
Defined.

(** ** [apply] *)

Section Node.
Variable path_isAbsolute : string → bool.
Variable path_join : string → string → string.
Variable path_dirname : string → string.
Variable filesystem : AssetsCopyProcessor.Filesystem.

Abbreviation apply := (apply path_isAbsolute path_join path_dirname filesystem).
Abbreviation detectPaths := (detectPaths path_isAbsolute path_join path_dirname).

(** Past the guard, [apply] taps both hooks and logs the paths. *)
Lemma apply_bundle plugin o args compiler :
  Cli.arguments o = Cli.ArgumentsBundle args →
  Js.truthy_bool (Config.devServerEnabled (config plugin)) = false →
  let paths := detectPaths (config plugin) (Cli.config_root o) args in
  apply plugin (Some o) compiler
  = {| hooks_compilation :=
         hooks_compilation compiler
         ++ [{| tap_name := "OutputPlugin"; tap_fn := processAssets (config plugin) |}];
       hooks_afterEmit :=
         hooks_afterEmit compiler
         ++ [{| tap_name := "OutputPlugin";
                tap_fn := afterEmit filesystem (config plugin) paths |}];
       infrastructureLog :=
         infrastructureLog compiler
         ++ [("ReactNativeOutputPlugin", "Detected output paths:", paths)] |}.
Proof.
  intros Ha Hd. unfold OutputPlugin.apply, bypass. rewrite Ha, Hd. simpl.
  destruct o as [root a]. simpl in *. by subst a.
Qed.

Lemma apply_bypass plugin cliOptions compiler :
  bypass (config plugin) cliOptions = true → apply plugin cliOptions compiler = compiler.
Proof. intros H. unfold OutputPlugin.apply. by rewrite H. Qed.

(** C7: without decoded CLI options, with a [start] command, or with the
    development server on, [apply] returns with the compiler as it was: no
    hook is tapped and nothing is logged; a build of a compiler that has this
    plugin alone then leaves the closure variables, the assets and the copies
    as they were. *)
Theorem bypass_is_noop plugin cliOptions compiler :
  cliOptions = None
  ∨ (∃ o, cliOptions = Some o ∧ Cli.arguments o = Cli.ArgumentsStart)
  ∨ Config.devServerEnabled (config plugin) = Some true →
  apply plugin cliOptions compiler = compiler
  ∧ ∀ compilation w,
      runBuild (apply plugin cliOptions emptyCompiler) compilation w = (w, Normal tt).
Proof.
  intros H.
  assert (bypass (config plugin) cliOptions = true) as Hb.
  { unfold bypass. destruct H as [-> | [(o & -> & Ho) | Hd]]; [done | by rewrite Ho |].
    destruct cliOptions as [o |]; [| done]. rewrite Hd. apply orb_true_r. }
  split; [by apply apply_bypass |].
  intros compilation w. by rewrite apply_bypass.
Qed.

End Node.

Lemma bypass_is_noop_witness :
  OutputPlugin.apply Builds.isAbsolute Builds.join Builds.dirname Builds.reliable
    {| config := Builds.configure None None |} (Some Builds.startCommand) emptyCompiler
  = emptyCompiler
  ∧ OutputPlugin.apply Builds.isAbsolute Builds.join Builds.dirname Builds.reliable
      {| config := Builds.devServer |} (Some Builds.bundleCommand) emptyCompiler
    = emptyCompiler
  ∧ OutputPlugin.apply Builds.isAbsolute Builds.join Builds.dirname Builds.reliable
      {| config := Builds.configure None None |} None emptyCompiler
    = emptyCompiler.
Proof.
  split_and!.
  - apply (bypass_is_noop Builds.isAbsolute Builds.join Builds.dirname Builds.reliable).
    right; left. exists Builds.startCommand. split; reflexivity.
  - apply (bypass_is_noop Builds.isAbsolute Builds.join Builds.dirname Builds.reliable).
    right; right. reflexivity.
  - apply (bypass_is_noop Builds.isAbsolute Builds.join Builds.dirname Builds.reliable).
    left. reflexivity.
Defined.

(** ** The [processAssets] callback *)

Lemma find_None_intro {A} (f : A → bool) (l : list A) :
  (∀ x, x ∈ l → f x = false) → List.find f l = None.
Proof.
  induction l as [| y l IH]; intros H; [done |]. simpl.
  rewrite (H y) by (apply elem_of_cons; by left).
  apply IH. intros x Hx. apply H, elem_of_cons. by right.
Qed.

(** The callback, step by step. *)
Lemma processAssets_eq cfg compilation w :
  let v := classify cfg compilation (vars w) in
  processAssets cfg compilation w
  = match findEntryChunk cfg compilation with
    | None =>
        ({| vars := v; assets := assets w; copied := copied w |},
         Throw "Cannot infer entry chunk - this should have not happened.")
    | Some e =>
        match updateAsset (assets w) (head (files (heap compilation e)))
                (λ source, manifest compilation v +:+ Js.newline +:+ source) with
        | inl message =>
            ({| vars := v; assets := assets w; copied := copied w |}, Throw message)
        | inr a => ({| vars := v; assets := a; copied := copied w |}, Normal tt)
        end
    end.
Proof.
  intros v. unfold processAssets, mbind, Hook_bind, bind, modify_vars, get_vars.
  simpl. fold v. unfold v at 1. rewrite entryChunk_classify.
  destruct (findEntryChunk cfg compilation) as [e |]; [| done].
  unfold compilation_updateAsset. simpl.
  by destruct (updateAsset _ _ _).
Qed.

Lemma findEntryChunk_None cfg compilation :
  (∀ g, g ∈ chunkGroups compilation → isInitial g = false)
  ∨ (∃ g, findEntryGroup compilation = Some g
          ∧ ∀ c, c ∈ chunks g → name (heap compilation c) ≠ Some (entryChunkName cfg)) →
  findEntryChunk cfg compilation = None.
Proof.
  unfold findEntryChunk. intros [Hno | (g & -> & Hg)].
  - unfold findEntryGroup. by rewrite find_None_intro.
  - simpl. apply find_None_intro. intros c Hc. by apply bool_decide_eq_false_2, Hg.
Qed.

(** C5: when no chunk group is initial, or no chunk of the initial group
    has the entry name, the [processAssets] callback throws; the assets and
    the copies are then as they were before the callback, and a build of a
    compiler with this plugin ends with the same error before [afterEmit] is
    called, with the assets and the copies untouched. *)
Theorem missing_entry_is_fatal cfg compilation w :
  (∀ g, g ∈ chunkGroups compilation → isInitial g = false)
  ∨ (∃ g, findEntryGroup compilation = Some g
          ∧ ∀ c, c ∈ chunks g → name (heap compilation c) ≠ Some (entryChunkName cfg)) →
  let failed := ({| vars := classify cfg compilation (vars w);
                    assets := assets w; copied := copied w |},
                 Throw "Cannot infer entry chunk - this should have not happened.") in
  processAssets cfg compilation w = failed
  ∧ ∀ isAbs join dirname filesystem o args,
      Cli.arguments o = Cli.ArgumentsBundle args →
      Js.truthy_bool (Config.devServerEnabled cfg) = false →
      runBuild (OutputPlugin.apply isAbs join dirname filesystem {| config := cfg |}
                  (Some o) emptyCompiler)
               compilation w = failed.
Proof.
  intros Hentry%(findEntryChunk_None cfg) failed.
  assert (processAssets cfg compilation w = failed) as Hp.
  { rewrite processAssets_eq. by rewrite Hentry. }
  split; [done |]. intros isAbs join dirname filesystem o args Ha Hd.
  rewrite (apply_bundle isAbs join dirname filesystem {| config := cfg |} o args) by done.
  unfold runBuild, callTaps, mbind, Hook_bind, bind. simpl.
  by rewrite Hp.
Qed.

Lemma missing_entry_is_fatal_witness :
  let w := Builds.world [("index.chunk.bundle", "BODY")] in
  ∃ w', runBuild (OutputPlugin.apply Builds.isAbsolute Builds.join Builds.dirname
                    Builds.reliable {| config := Builds.configure None None |}
                    (Some Builds.bundleCommand) emptyCompiler)
                 Builds.noEntry w
        = (w', Throw "Cannot infer entry chunk - this should have not happened.")
        ∧ assets w' = assets w ∧ copied w' = [].
Proof.
  intros w.
  destruct (missing_entry_is_fatal (Builds.configure None None) Builds.noEntry w)
    as [_ H].
  - right. eexists. split; [reflexivity |].
    intros c Hc. vm_compute. discriminate.
  - eexists. split.
    + apply (H Builds.isAbsolute Builds.join Builds.dirname Builds.reliable
               Builds.bundleCommand Builds.bundleArguments); reflexivity.
    + split; reflexivity.
Defined.

(** ** Manifest injection *)

Lemma updateAsset_Some (a : gmap string string) file source fn :
  a !! file = Some source →
  updateAsset a (Some file) fn = inr (<[file := fn source]> a).
Proof. intros H. unfold updateAsset. simpl. by rewrite H. Qed.

Lemma processAssets_injects cfg compilation w e file source :
  findEntryChunk cfg compilation = Some e →
  head (files (heap compilation e)) = Some file →
  assets w !! file = Some source →
  let v := classify cfg compilation (vars w) in
  processAssets cfg compilation w
  = ({| vars := v;
        assets := <[file := manifest compilation v +:+ Js.newline +:+ source]> (assets w);
        copied := copied w |},
     Normal tt).
Proof.
  intros He Hfile Hsource v.
  by rewrite processAssets_eq, He, Hfile, (updateAsset_Some _ _ source).
Qed.

(** *** Reading the declaration back *)

Lemma append_assoc (a b c : string) : (a +:+ b) +:+ c = a +:+ (b +:+ c).
Proof.
  induction a as [| x a IH]; [done |].
  change (String x ((a +:+ b) +:+ c) = String x (a +:+ (b +:+ c))). by rewrite IH.
Qed.

Lemma unquote_char_quote_char (c : ascii) (rest : string) :
  unquote_char (Js.quote_char c +:+ rest) = Some (c, rest).
Proof. destruct c as [[] [] [] [] [] [] [] []]; reflexivity. Qed.

Lemma quote_chars_cons (c : ascii) (s r : string) :
  Js.quote_chars (String c s) +:+ r = Js.quote_char c +:+ (Js.quote_chars s +:+ r).
Proof.
  change (Js.quote_chars (String c s)) with (Js.quote_char c +:+ Js.quote_chars s).
  apply append_assoc.
Qed.

Lemma quote_append (s r : string) :
  Js.quote s +:+ r = String "034" (Js.quote_chars s +:+ String "034" r).
Proof.
  unfold Js.quote, Js.dquote.
  change (String "034" ((Js.quote_chars s +:+ String "034" EmptyString) +:+ r)
          = String "034" (Js.quote_chars s +:+ String "034" r)).
  by rewrite append_assoc.
Qed.

(** What [JSON.stringify] writes for a string reads as that string. *)
Lemma reads_quote_chars (s rest : string) :
  ReadsChars (Js.quote_chars s +:+ String "034" rest) s rest.
Proof.
  induction s as [| c s IH]; [apply reads_closing |].
  rewrite quote_chars_cons.
  by apply (reads_char _ c (Js.quote_chars s +:+ String "034" rest));
    [apply unquote_char_quote_char |].
Qed.

Lemma reads_element (x : option string) (rest : string) :
  ReadsElement (Js.stringify_element x +:+ rest) x rest.
Proof.
  destruct x as [s |]; unfold Js.stringify_element.
  - rewrite quote_append. apply reads_string, reads_quote_chars.
  - apply reads_null.
Qed.

Lemma join_comma_cons (x : string) (l : list string) (r : string) :
  Js.join_comma (x :: l) +:+ r
  = x +:+ match l with
          | [] => r
          | _ => String "," (Js.join_comma l +:+ r)
          end.
Proof.
  destruct l as [| y l]; [done |].
  change (Js.join_comma (x :: y :: l)) with (x +:+ "," +:+ Js.join_comma (y :: l)).
  by rewrite !append_assoc.
Qed.

Lemma reads_tail (l : list (option string)) (rest : string) :
  ReadsTail match l with
            | [] => String "]" rest
            | _ => String "," (Js.join_comma (Js.stringify_element <$> l) +:+ String "]" rest)
            end l rest.
Proof.
  induction l as [| x l IH]; [apply reads_bracket |].
  rewrite fmap_cons, join_comma_cons.
  eapply reads_comma; [apply reads_element |].
  by destruct l.
Qed.

Lemma reads_array (l : list (option string)) (rest : string) :
  ReadsArray (Js.stringify_array l +:+ rest) l rest.
Proof.
  unfold Js.stringify_array. rewrite !append_assoc.
  change ("[" +:+ ?t) with (String "[" t).
  change ("]" +:+ rest) with (String "]" rest).
  destruct l as [| x l]; [apply reads_empty |].
  rewrite fmap_cons, join_comma_cons.
  eapply reads_first; [apply reads_element |].
  pose proof (reads_tail l rest) as H. by destruct l.
Qed.



(** A text is read in one way only. *)
Lemma ReadsChars_fun text s rest :
  ReadsChars text s rest → ∀ s' rest', ReadsChars text s' rest' → s = s' ∧ rest = rest'.
Proof.
  induction 1 as [rest | text c text' s rest Hc _ IH]; intros s' rest' H'.
  - inversion H' as [| ? ? ? ? ? Hc']; subst; [done |].
    simpl in Hc'. discriminate Hc'.
  - inversion H' as [r Ht | ? c2 t2 s2 ? Hc' Hs']; subst.
    + simpl in Hc. discriminate Hc.
    + rewrite Hc in Hc'. injection Hc' as <- <-.
      by destruct (IH _ _ Hs') as [<- <-].
Qed.

Lemma ReadsElement_fun text x rest :
  ReadsElement text x rest → ∀ x' rest', ReadsElement text x' rest' → x = x' ∧ rest = rest'.
Proof.
  intros [r | t s r Hs] x' rest' H'; inversion H' as [| ? ? ? Hs']; subst; [done |].
  by destruct (ReadsChars_fun _ _ _ Hs _ _ Hs') as [<- <-].
Qed.

Lemma ReadsTail_fun text l rest :
  ReadsTail text l rest → ∀ l' rest', ReadsTail text l' rest' → l = l' ∧ rest = rest'.
Proof.
  induction 1 as [rest | text x text' l rest Hx _ IH]; intros l' rest' H';
    inversion H' as [| ? ? ? ? ? Hx' Hl']; subst; [done |].
  destruct (ReadsElement_fun _ _ _ Hx _ _ Hx') as [<- <-].
  by destruct (IH _ _ Hl') as [<- <-].
Qed.

Lemma ReadsArray_fun text l rest :
  ReadsArray text l rest → ∀ l' rest', ReadsArray text l' rest' → l = l' ∧ rest = rest'.
Proof.
  intros [r | t x t' l0 r Hx Hl] l' rest' H';
    inversion H' as [| ? ? ? ? ? Hx' Hl']; subst.
  - done.
  - inversion Hx'.
  - inversion Hx.
  - destruct (ReadsElement_fun _ _ _ Hx _ _ Hx') as [<- <-].
    by destruct (ReadsTail_fun _ _ _ Hl _ _ Hl') as [<- <-].
Qed.




(** ** Distribution *)

Lemma enqueue_all (f : ChunkRef → bool) (l : list ChunkRef) (p : AssetsCopyProcessor.t) :
  foldl (λ p chunk, AssetsCopyProcessor.enqueueChunk p chunk (f chunk)) p l
  = {| AssetsCopyProcessor.options := AssetsCopyProcessor.options p;
       AssetsCopyProcessor.queue :=
         AssetsCopyProcessor.queue p ++ ((λ chunk, (chunk, f chunk)) <$> l) |}.
Proof.
  revert p. induction l as [| c l IH]; intros p.
  - simpl. rewrite app_nil_r. by destruct p.
  - rewrite foldl_head, IH. simpl. by rewrite <- app_assoc.
Qed.

Lemma execute_enqueue_all filesystem options (f : ChunkRef → bool) (l : list ChunkRef) :
  AssetsCopyProcessor.execute filesystem
    (foldl (λ p chunk, AssetsCopyProcessor.enqueueChunk p chunk (f chunk))
           (AssetsCopyProcessor.new options) l)
  = AssetsCopyProcessor.settle filesystem <$> copies options f l.
Proof.
  rewrite enqueue_all. unfold AssetsCopyProcessor.execute, copies. simpl.
  by rewrite <- !list_fmap_compose.
Qed.

(** The copies that go through, and the failure thrown, among the signals
    of a list of copies. *)
Lemma fulfilled_settle filesystem (l : list AssetsCopyProcessor.Copy) :
  AssetsCopyProcessor.fulfilled (AssetsCopyProcessor.settle filesystem <$> l)
  = filter (λ c, filesystem c = None) l.
Proof.
  unfold AssetsCopyProcessor.fulfilled.
  induction l as [| c l IH]; [done |]. rewrite fmap_cons.
  change (omap ?f (?x :: ?l))
    with (match f x with Some y => y :: omap f l | None => omap f l end).
  unfold AssetsCopyProcessor.settle at 1.
  destruct (filesystem c) as [message |] eqn:Hc.
  - rewrite filter_cons_False by (by rewrite Hc). exact IH.
  - rewrite filter_cons_True by done. by rewrite IH.
Qed.

Lemma rejection_settle_None filesystem (l : list AssetsCopyProcessor.Copy) :
  (∀ c, c ∈ l → filesystem c = None) →
  AssetsCopyProcessor.rejection (AssetsCopyProcessor.settle filesystem <$> l) = None.
Proof.
  unfold AssetsCopyProcessor.rejection.
  induction l as [| c l IH]; intros H; [done |]. rewrite fmap_cons.
  change (omap ?f (?x :: ?l))
    with (match f x with Some y => y :: omap f l | None => omap f l end).
  unfold AssetsCopyProcessor.settle at 1.
  rewrite (H c) by (apply elem_of_cons; by left).
  apply IH. intros x Hx. apply H, elem_of_cons. by right.
Qed.

Lemma rejection_settle_Some filesystem (l : list AssetsCopyProcessor.Copy) :
  (∃ c, c ∈ l ∧ filesystem c ≠ None) →
  ∃ message c,
    AssetsCopyProcessor.rejection (AssetsCopyProcessor.settle filesystem <$> l) = Some message
    ∧ c ∈ l ∧ filesystem c = Some message.
Proof.
  unfold AssetsCopyProcessor.rejection.
  induction l as [| c l IH]; intros (x & Hx & Hfail); [by apply elem_of_nil in Hx |].
  rewrite fmap_cons.
  change (omap ?f (?x :: ?l))
    with (match f x with Some y => y :: omap f l | None => omap f l end).
  unfold AssetsCopyProcessor.settle at 1.
  destruct (filesystem c) as [message |] eqn:Hc.
  - exists message, c. split_and!; [done | by apply list_elem_of_here | done].
  - apply elem_of_cons in Hx as [-> | Hx]; [done |].
    destruct IH as (message & y & Hr & Hy & Hm); [by exists x |].
    exists message, y. split_and!; [done | | done]. apply elem_of_cons. by right.
Qed.

Lemma filter_all {A} (P : A → Prop) `{∀ x, Decision (P x)} (l : list A) :
  (∀ x, x ∈ l → P x) → filter P l = l.
Proof.
  induction l as [| x l IH]; intros Hall; [done |].
  rewrite filter_cons, decide_True by (apply Hall, elem_of_cons; by left).
  f_equal. apply IH. intros y Hy. apply Hall, elem_of_cons. by right.
Qed.

(** The callback, once the output path is known. *)
Lemma afterEmit_eq filesystem cfg paths compilation w outputPath :
  outputOptions_path compilation = Some outputPath →
  outputPath ≠ "" →
  let signals := AssetsCopyProcessor.settle filesystem <$> queued cfg paths outputPath (vars w) in
  afterEmit filesystem cfg paths compilation w
  = ({| vars := vars w; assets := assets w;
        copied := copied w ++ AssetsCopyProcessor.fulfilled signals |},
     match AssetsCopyProcessor.rejection signals with
     | None => Normal tt
     | Some message => Throw message
     end).
Proof.
  intros Hpath Hne. unfold afterEmit. rewrite Hpath. simpl.
  rewrite bool_decide_eq_true_2 by done. simpl.
  unfold mbind, Hook_bind, bind, get_vars, await_all, queued. simpl.
  unfold enqueueLocal, enqueueRemote. rewrite execute_enqueue_all, fmap_app.
  destruct (Js.truthy (remoteChunksOutput paths)); [by rewrite execute_enqueue_all | done].
Qed.

Lemma afterEmit_all filesystem cfg paths compilation w outputPath :
  outputOptions_path compilation = Some outputPath →
  outputPath ≠ "" →
  (∀ c, c ∈ queued cfg paths outputPath (vars w) → filesystem c = None) →
  afterEmit filesystem cfg paths compilation w
  = ({| vars := vars w; assets := assets w;
        copied := copied w ++ queued cfg paths outputPath (vars w) |},
     Normal tt).
Proof.
  intros Hpath Hne Hall. rewrite (afterEmit_eq _ _ _ _ _ outputPath) by done. cbv zeta.
  by rewrite fulfilled_settle, rejection_settle_None, filter_all.
Qed.

Lemma remoteChunksOutput_unset isAbs join dirname cfg root args :
  Js.truthy (Config.remoteChunksOutput cfg) = false →
  remoteChunksOutput (detectPaths isAbs join dirname cfg root args)
  = Config.remoteChunksOutput cfg.
Proof. intros H. unfold detectPaths. simpl. by rewrite H. Qed.

Lemma remoteChunksOutput_set isAbs join dirname cfg root args :
  (∀ a b, join a b ≠ "") →
  Js.truthy (remoteChunksOutput (detectPaths isAbs join dirname cfg root args))
  = Js.truthy (Config.remoteChunksOutput cfg).
Proof.
  intros Hjoin. unfold detectPaths. simpl.
  destruct (Config.remoteChunksOutput cfg) as [r |]; simpl; [| done].
  destruct (decide (r = "")) as [-> | Hr]; [done |].
  rewrite (bool_decide_eq_true_2 (r ≠ "")) by done. simpl.
  destruct (isAbs r); simpl; by rewrite bool_decide_eq_true_2.
Qed.

Lemma runBuild_apply isAbs join dirname filesystem cfg o args compilation w :
  Cli.arguments o = Cli.ArgumentsBundle args →
  Js.truthy_bool (Config.devServerEnabled cfg) = false →
  runBuild (OutputPlugin.apply isAbs join dirname filesystem {| config := cfg |}
              (Some o) emptyCompiler)
           compilation w
  = match processAssets cfg compilation w with
    | (w1, Normal _) =>
        afterEmit filesystem cfg (detectPaths isAbs join dirname cfg (Cli.config_root o) args)
                  compilation w1
    | (w1, Throw message) => (w1, Throw message)
    end.
Proof.
  intros Ha Hd.
  rewrite (apply_bundle isAbs join dirname filesystem {| config := cfg |} o args) by done.
  unfold runBuild, callTaps, mbind, mret, Hook_bind, Hook_ret, bind, ret. simpl.
  destruct (processAssets cfg compilation w) as [w1 [[] | message]]; [| done].
  by destruct (afterEmit _ _ _ _ w1) as [w2 [[] | message]].
Qed.

(** C9 fails on the builds of C1 and C2, both without a remote directory
    and with every copy going through.  On the first, [settings] is in
    [remoteChunks] and, being in [localChunks] as well, is handed to the
    local processor and copied with the local chunks.  On the second, the
    entry chunk [main] is in [remoteChunks] and in no other array: its file
    is the one the declaration is put in front of, and no chunk is handed to
    the local processor. *)
Theorem remote_chunk_distributed :
  let sources := [("main.chunk.bundle", "MAIN"); ("settings.chunk.bundle", "SETTINGS");
                ("profile.chunk.bundle", "PROFILE"); ("vendor.chunk.bundle", "LIB")] in
  let build cfg :=
    runBuild (OutputPlugin.apply Builds.isAbsolute Builds.join Builds.dirname Builds.reliable
                {| config := cfg |} (Some Builds.bundleCommand) emptyCompiler) in
  let paths cfg :=
    detectPaths Builds.isAbsolute Builds.join Builds.dirname cfg "/app"
      Builds.bundleArguments in
  let handed (c : AssetsCopyProcessor.Copy) :=
    (AssetsCopyProcessor.bundleOutputDir (AssetsCopyProcessor.copy_to c),
     AssetsCopyProcessor.copy_chunk c, AssetsCopyProcessor.copy_isEntry c) in
  (Config.remoteChunksOutput Builds.dependOn_config = None
   ∧ ∃ w', build Builds.dependOn_config Builds.dependOn (Builds.world sources) = (w', Normal tt)
           ∧ remoteChunks (vars w') = [1]
           ∧ AssetsCopyProcessor.queue
               (enqueueLocal (vars w')
                  (AssetsCopyProcessor.new
                     (localOptions Builds.dependOn_config (paths Builds.dependOn_config)
                        "/build")))
             = [(0, true); (2, false); (1, false)]
           ∧ handed <$> copied w'
             = [("/app/ios/main.jsbundle/..", 0, true); ("/app/ios/main.jsbundle/..", 2, false);
                ("/app/ios/main.jsbundle/..", 1, false)])
  ∧ (Config.remoteChunksOutput (Builds.configure None None) = None
     ∧ ∃ w', build (Builds.configure None None) Builds.vendorFirst (Builds.world sources)
             = (w', Normal tt)
             ∧ localChunks (vars w') = []
             ∧ remoteChunks (vars w') = [0; 1]
             ∧ files (heap Builds.vendorFirst 1) = ["main.chunk.bundle"]
             ∧ assets w' !! "main.chunk.bundle"
               = Some ("var __CHUNKS__={" +:+ String "034" ("local" +:+ String "034" (":[]};"
                       +:+ String "010" "MAIN")))
             ∧ copied w' = []).
Proof.
  intros sources build paths handed. split; (split; [reflexivity |]).
  - eexists. split; [reflexivity |]. split_and!; reflexivity.
  - eexists. split; [reflexivity |]. split_and!; reflexivity.
Qed.

(** * Further properties of the classification *)

(** X1: every chunk of [compilation.chunks] is pushed to one of the two
    arrays, and whatever is in the arrays is a chunk of [compilation.chunks]
    or one of the initial chunks of such a chunk. *)
Theorem classification_covers cfg compilation :
  let v := classify cfg compilation initial in
  (∀ c, c ∈ compilation_chunks compilation → c ∈ localChunks v ∨ c ∈ remoteChunks v)
  ∧ (∀ x, x ∈ localChunks v ++ remoteChunks v →
          x ∈ compilation_chunks compilation
          ∨ ∃ c, c ∈ compilation_chunks compilation ∧ x ∈ closure compilation c).
Proof.
  intros v. split; [intros c; apply classify_total |].
  intros x Hx. subst v. rewrite classify_secondLoop in Hx.
  destruct (firstPass_origin cfg compilation) as [Hsh Hpu].
  assert (x ∈ localChunks (firstPass cfg compilation initial).2
              ++ remoteChunks (firstPass cfg compilation initial).2
          ∨ x ∈ (firstPass cfg compilation initial).1) as [Hp | Hs].
  { rewrite elem_of_app in *.
    destruct Hx as [[? | ?]%localChunks_secondLoop_inv | [? | ?]%remoteChunks_secondLoop_inv];
      tauto. }
  - left. by apply Hpu.
  - right. destruct (Hsh x Hs) as (c & Hc & Hxc & _). exists c. split; [by apply Hpu | done].
Qed.

(** X2: when [compilation.chunks] has no repetition and being among the
    initial chunks is mutual between its chunks, the two arrays together hold
    every chunk exactly once: they are a rearrangement of
    [compilation.chunks]. *)
Theorem partition_when_mutual cfg compilation :
  NoDup (compilation_chunks compilation) →
  (∀ c x, c ∈ compilation_chunks compilation → x ∈ closure compilation c →
          x ∈ compilation_chunks compilation ∧ c ∈ closure compilation x) →
  let v := classify cfg compilation initial in
  localChunks v ++ remoteChunks v ≡ₚ compilation_chunks compilation.
Proof.
  intros Hnodup Hmutual v. subst v.
  destruct (firstPass_partition cfg compilation Hnodup Hmutual) as [HL HR Hdis Hap Hin].
  destruct (firstPass_origin cfg compilation) as [_ Hpu].
  destruct (secondLoop_partition compilation
              (firstPass cfg compilation initial).1
              ((firstPass cfg compilation initial).2, (firstLoop cfg compilation initial).2))
    as (HL' & HR' & Hdis'); try done; [apply sharedChunks_NoDup |].
  apply NoDup_Permutation.
  - rewrite classify_secondLoop. apply NoDup_app. split_and!; done.
  - done.
  - intros x. split.
    + rewrite classify_secondLoop, elem_of_app.
      intros [[Hx | Hx]%localChunks_secondLoop_inv | [Hx | Hx]%remoteChunks_secondLoop_inv].
      * apply Hpu, elem_of_app. by left.
      * by apply Hin.
      * apply Hpu, elem_of_app. by right.
      * by apply Hin.
    + intros Hx. apply elem_of_app. by apply classify_total.
Qed.

Lemma partition_when_mutual_witness :
  let v := classify (Builds.configure None None) Builds.split initial in
  localChunks v ++ remoteChunks v ≡ₚ [0; 1; 2].
Proof.
  apply (partition_when_mutual (Builds.configure None None) Builds.split).
  - listed.
  - intros c x Hc Hx. change (compilation_chunks Builds.split) with [0; 1; 2] in *.
    among; unfold closure in Hx; simpl in Hx; among; split; listed.
Defined.

(** X3: when the entry chunk is a chunk of [compilation.chunks] and no
    other chunk has it among its initial chunks, it is classified local and
    not remote, whatever the rules. *)
Theorem entry_local_unless_shared cfg compilation e :
  findEntryChunk cfg compilation = Some e →
  e ∈ compilation_chunks compilation →
  (∀ c, c ∈ compilation_chunks compilation → c ≠ e → e ∉ closure compilation c) →
  let v := classify cfg compilation initial in
  e ∈ localChunks v ∧ e ∉ remoteChunks v.
Proof.
  intros He Hin Halone v. subst v. rewrite classify_secondLoop.
  destruct (firstPass_inv cfg compilation) as [_ _ Htot Hrem _].
  destruct (firstPass_origin cfg compilation) as [Hsh Hpu].
  assert (e ∉ (firstPass cfg compilation initial).1) as Hns.
  { intros (c & Hc & Hec & Hne)%Hsh. apply (Halone c); [by apply Hpu | done | done]. }
  assert (e ∉ remoteChunks (firstPass cfg compilation initial).2) as Hnr.
  { intros Hne%Hrem. done. }
  split.
  - apply localChunks_secondLoop. destruct (Htot e Hin) as [? | [? | ?]]; done.
  - intros [? | ?]%remoteChunks_secondLoop_inv; done.
Qed.

Lemma entry_local_unless_shared_witness :
  let v := classify Builds.dependOn_config Builds.dependOn initial in
  0 ∈ localChunks v ∧ 0 ∉ remoteChunks v.
Proof.
  apply (entry_local_unless_shared Builds.dependOn_config Builds.dependOn 0).
  - reflexivity.
  - listed.
  - intros c Hc Hne. change (compilation_chunks Builds.dependOn) with [0; 1; 2] in Hc.
    among; [done | listed | listed].
Defined.

(** X4: with rules that keep no state from one test to the next, a chunk
    of [compilation.chunks] whose identity matches the rules is classified
    local and not remote, whichever loop classifies it. *)
Theorem matching_chunk_is_local cfg compilation c :
  stateless cfg = true →
  c ∈ compilation_chunks compilation →
  isLocalChunk cfg (identity compilation c) = true →
  let v := classify cfg compilation initial in
  c ∈ localChunks v ∧ c ∉ remoteChunks v.
Proof.
  intros Hstateless Hc Hl v.
  destruct (classify_rules cfg compilation Hstateless) as [_ Hrem].
  assert (c ∉ remoteChunks v) as Hnr.
  { intros Hr%Hrem. congruence. }
  split; [| done]. destruct (classify_total cfg compilation c Hc); done.
Qed.

Lemma matching_chunk_is_local_witness :
  let v := classify Builds.lateRule_config Builds.lateRule initial in
  3 ∈ localChunks v ∧ 3 ∉ remoteChunks v.
Proof.
  apply (matching_chunk_is_local Builds.lateRule_config Builds.lateRule 3).
  - reflexivity.
  - listed.
  - reflexivity.
Defined.

(** X5: when the first loop classifies a chunk local (the chunk never
    enters the shared set, and it is the entry chunk or, the rules keeping no
    state from one test to the next, it matches the rules), every one of its
    initial chunks is classified local. *)
Theorem local_chunk_pulls_initial_chunks cfg compilation l s :
  l ∈ compilation_chunks compilation →
  l ∉ (firstPass cfg compilation initial).1 →
  findEntryChunk cfg compilation = Some l
  ∨ (stateless cfg = true ∧ isLocalChunk cfg (identity compilation l) = true) →
  s ∈ closure compilation l →
  s ∈ localChunks (classify cfg compilation initial).
Proof.
  intros Hl Hns Hwhy Hs.
  apply (initial_chunks_of_first_pass_local cfg compilation l s); [| done].
  destruct (firstPass_inv cfg compilation) as [_ _ Htot Hrem _].
  destruct (Htot l Hl) as [? | [? | Hr]]; [done | done |].
  destruct Hwhy as [He | [Hstateless Hm]]; [by apply Hrem in Hr |].
  destruct (firstLoop_rules cfg compilation Hstateless) as [_ _ Hno].
  apply Hno in Hr. congruence.
Qed.

Lemma local_chunk_pulls_initial_chunks_witness :
  1 ∈ localChunks (classify (Builds.configure None None) Builds.split initial)
  ∧ 1 ∈ localChunks (classify Builds.dependOn_config Builds.dependOn initial).
Proof.
  split.
  - apply (local_chunk_pulls_initial_chunks (Builds.configure None None) Builds.split 0 1).
    + listed.
    + listed.
    + left. reflexivity.
    + listed.
  - apply (local_chunk_pulls_initial_chunks Builds.dependOn_config Builds.dependOn 2 1).
    + listed.
    + listed.
    + right. split; reflexivity.
    + listed.
Defined.

(** X6: the shared set the first loop hands to the second is, exactly, the
    chunks that are among the initial chunks of another chunk that the first
    loop pushed to one of the arrays. *)
Theorem shared_set_characterized cfg compilation s :
  let first := firstPass cfg compilation initial in
  s ∈ first.1
  ↔ ∃ c, c ∈ localChunks first.2 ++ remoteChunks first.2
         ∧ s ∈ closure compilation c ∧ s ≠ c.
Proof.
  intros first. split.
  - apply (firstPass_origin cfg compilation).
  - intros (c & Hc & Hs & Hne).
    destruct (firstPass_inv cfg compilation) as [_ _ _ _ Hsh]. by apply (Hsh c s).
Qed.

(** ** From one compilation to the next *)

Lemma firstLoop_grows compilation (l : list ChunkRef)
    (acc : list ChunkRef * Closure * Config.OutputPluginConfig) :
  let acc' := foldl (classifyChunk compilation) acc l in
  localChunks acc.1.2 `prefix_of` localChunks acc'.1.2
  ∧ remoteChunks acc.1.2 `prefix_of` remoteChunks acc'.1.2.
Proof.
  revert acc. induction l as [| c l IH]; intros acc; [done |].
  cbv zeta. rewrite foldl_head.
  destruct (IH (classifyChunk compilation acc c)) as [HL HR]. cbv zeta in HL, HR.
  destruct acc as [[S v] k].
  destruct (classifyChunk_pushes compilation k S v c)
    as [[_ Hc] | (_ & S' & k' & _ & _ & [Hc | [_ Hc]])];
    rewrite Hc in HL, HR |- *; simpl in *; split; try done.
  - etrans; [| exact HL]. by apply prefix_app_r.
  - etrans; [| exact HR]. by apply prefix_app_r.
Qed.

Lemma secondLoop_grows compilation (shared : list ChunkRef)
    (acc : Closure * Config.OutputPluginConfig) :
  localChunks acc.1 `prefix_of` localChunks (secondPass compilation acc shared).1
  ∧ remoteChunks acc.1 `prefix_of` remoteChunks (secondPass compilation acc shared).1.
Proof.
  revert acc. induction shared as [| s shared IH]; intros acc; [done |].
  rewrite secondLoop_cons. destruct (IH (resolveSharedChunk compilation acc s)) as [HL HR].
  destruct (resolveSharedChunk_pushes compilation acc s) as [[k' Hr] | [k' Hr]];
    rewrite Hr in HL, HR |- *; simpl in *; split; try done.
  - etrans; [| exact HL]. by apply prefix_app_r.
  - etrans; [| exact HR]. by apply prefix_app_r.
Qed.

(** X7: the two arrays are declared by [apply] and never emptied: whatever
    they hold when the [processAssets] callback starts (what an earlier
    compilation of the same compiler pushed) is still there, in front, when
    the classification is over. *)
Theorem arrays_only_grow cfg compilation v :
  localChunks v `prefix_of` localChunks (classify cfg compilation v)
  ∧ remoteChunks v `prefix_of` remoteChunks (classify cfg compilation v).
Proof.
  rewrite classify_secondLoop.
  destruct (secondLoop_grows compilation (firstPass cfg compilation v).1
              ((firstPass cfg compilation v).2, (firstLoop cfg compilation v).2)) as [HL HR].
  destruct (firstLoop_grows compilation (compilation_chunks compilation)
              ([], set_entry (findEntryGroup compilation)
                             (findEntryChunk cfg compilation) v, cfg)) as [HL1 HR1].
  split; etrans; done.
Qed.

(** X8: when the entry chunk is resolved, it is a chunk of the first initial
    chunk group and its name is the configured entry name, [main] when none is
    configured. *)
Theorem findEntryChunk_sound cfg compilation e :
  findEntryChunk cfg compilation = Some e →
  ∃ group, findEntryGroup compilation = Some group
           ∧ group ∈ chunkGroups compilation
           ∧ isInitial group = true
           ∧ e ∈ chunks group
           ∧ name (heap compilation e) = Some (default "main" (Config.entry cfg)).
Proof.
  unfold findEntryChunk. intros He.
  destruct (findEntryGroup compilation) as [group |] eqn:Hg; [| done].
  simpl in He. exists group. apply find_some in Hg as [Hin Hinit].
  apply find_some in He as [Hc Hname]. apply bool_decide_eq_true in Hname.
  split_and!; [done | by apply list_elem_of_In | done | by apply list_elem_of_In | done].
Qed.

Lemma findEntryChunk_sound_witness :
  ∃ group, findEntryGroup Builds.apart = Some group
           ∧ group ∈ chunkGroups Builds.apart
           ∧ isInitial group = true
           ∧ 0 ∈ chunks group
           ∧ name (heap Builds.apart 0) = Some "main".
Proof.
  apply (findEntryChunk_sound (Builds.configure None None) Builds.apart 0). reflexivity.
Defined.

(** The loops change nothing of the configuration but the rule objects. *)
Lemma entry_isLocalChunk_after k chunkId :
  Config.entry (isLocalChunk_after k chunkId) = Config.entry k.
Proof.
  unfold isLocalChunk_after, isLocalChunk_call.
  by destruct (matchObject _ _).
Qed.

Lemma entry_classifyChunk compilation acc c :
  Config.entry (classifyChunk compilation acc c).2 = Config.entry acc.2.
Proof.
  destruct acc as [[S v] k].
  destruct (classifyChunk_cases compilation k S v c)
    as [[_ ->] | (_ & S' & _ & _ & [[_ ->] | [(_ & _ & ->) | (_ & _ & ->)]])];
    cbn [fst snd]; by rewrite ?entry_isLocalChunk_after.
Qed.

Lemma entry_secondLoop compilation shared acc :
  Config.entry (secondPass compilation acc shared).2 = Config.entry acc.2.
Proof.
  revert acc. induction shared as [| s shared IH]; intros [v k]; [done |].
  rewrite secondLoop_cons, IH.
  destruct (resolveSharedChunk_cases compilation v k s)
    as [[_ ->] | [(_ & _ & ->) | (_ & _ & ->)]];
    cbn [fst snd]; by rewrite ?entry_isLocalChunk_after.
Qed.

Lemma entry_configAfter cfg compilation v :
  Config.entry (configAfter cfg compilation v) = Config.entry cfg.
Proof.
  unfold configAfter, classification. rewrite entry_secondLoop. cbn [snd].
  unfold firstLoop.
  apply (foldl_visited (λ _ acc, Config.entry acc.2 = Config.entry cfg)); [done |].
  intros _ acc x H. by rewrite entry_classifyChunk.
Qed.

Lemma findEntryChunk_configAfter cfg compilation v :
  findEntryChunk (configAfter cfg compilation v) compilation = findEntryChunk cfg compilation.
Proof. unfold findEntryChunk, entryChunkName. by rewrite entry_configAfter. Qed.

(** * Further properties of [apply] and of the callbacks *)

(** X9: [apply] leaves the compiler as it was exactly when there are no
    decoded CLI options, the command is [start], or the development server is
    on; in every other case it taps a callback on each of the two hooks. *)
Theorem apply_unchanged_iff isAbs join dirname filesystem plugin cliOptions compiler :
  OutputPlugin.apply isAbs join dirname filesystem plugin cliOptions compiler = compiler
  ↔ (cliOptions = None
     ∨ (∃ o, cliOptions = Some o ∧ Cli.arguments o = Cli.ArgumentsStart)
     ∨ Config.devServerEnabled (config plugin) = Some true).
Proof.
  split.
  - intros Hsame. destruct cliOptions as [o |]; [| by left]. right.
    destruct (Cli.arguments o) as [args |] eqn:Ha; [| left; eauto].
    right. destruct (Config.devServerEnabled (config plugin)) as [[] |] eqn:Hd; [done | |];
      exfalso;
      rewrite (apply_bundle isAbs join dirname filesystem plugin o args) in Hsame
        by (by rewrite ?Hd);
      apply (f_equal (λ c, length (hooks_compilation c))) in Hsame;
      simpl in Hsame; rewrite length_app in Hsame; simpl in Hsame; lia.
  - intros H. apply apply_bypass. unfold bypass.
    destruct H as [-> | [(o & -> & Ho) | Hd]]; [done | by rewrite Ho |].
    destruct cliOptions as [o |]; [| done]. rewrite Hd. apply orb_true_r.
Qed.

(** X10: when joining anything to the project root gives an absolute path,
    the bundle path, the source-map path and a configured remote directory
    come out absolute; the assets directory is the one given, as given, and
    the directory of the bundle path only when none is given. *)
Theorem detected_paths_absolute isAbs join dirname cfg root args :
  (∀ p, isAbs (join root p) = true) →
  let paths := detectPaths isAbs join dirname cfg root args in
  isAbs (bundleOutput paths) = true
  ∧ isAbs (sourcemapOutput paths) = true
  ∧ (∀ r, remoteChunksOutput paths = Some r → r ≠ "" → isAbs r = true)
  ∧ (∀ d, Cli.assetsDest args = Some d → d ≠ "" → assetsDest paths = d)
  ∧ (Js.truthy (Cli.assetsDest args) = false →
     assetsDest paths = dirname (bundleOutput paths)).
Proof.
  intros Hroot paths. subst paths. unfold detectPaths. simpl. split_and!.
  - destruct (isAbs (Cli.bundleOutput args)) eqn:Hb; simpl; [done | apply Hroot].
  - match goal with |- isAbs (if negb (isAbs ?m) then _ else _) = true =>
      destruct (isAbs m) eqn:Hm; simpl; [done | apply Hroot] end.
  - destruct (Config.remoteChunksOutput cfg) as [r0 |]; simpl; [| done].
    case_bool_decide as Hr0; simpl.
    + intros r Hr _. destruct (isAbs r0) eqn:Habs; simpl in Hr;
        injection Hr as <-; [done | apply Hroot].
    + intros r Hr Hne. injection Hr as <-. by destruct Hr0.
  - intros d -> Hd. simpl. by rewrite bool_decide_eq_true_2.
  - destruct (Cli.assetsDest args) as [d |]; simpl; [| done].
    intros Hd. by rewrite Hd.
Qed.

Lemma detected_paths_absolute_witness :
  let paths := detectPaths Builds.isAbsolute Builds.join Builds.dirname
                 (Builds.configure None (Some "remote")) "/app" Builds.relativeArguments in
  bundleOutput paths = "/app/ios/main.jsbundle"
  ∧ Builds.isAbsolute (sourcemapOutput paths) = true
  ∧ remoteChunksOutput paths = Some "/app/remote"
  ∧ assetsDest paths = "res".
Proof.
  intros paths.
  destruct (detected_paths_absolute Builds.isAbsolute Builds.join Builds.dirname
              (Builds.configure None (Some "remote")) "/app" Builds.relativeArguments)
    as (_ & Hmap & _ & Hassets & _); [reflexivity |].
  split_and!; [reflexivity | exact Hmap | reflexivity |].
  apply Hassets; [reflexivity | discriminate].
Defined.

(** ** The [afterEmit] callback *)

(** X11: when [remoteChunksOutput] is configured (and joining paths never
    gives the empty path) and none of the copies fails, the callback has
    every chunk of [remoteChunks] copied by the remote processor, never
    flagged as entry, after the copies of the local processor; the remote
    processor's bundle directory and assets directory are both the detected
    remote directory, its bundle and source-map paths are empty. *)
Theorem remote_output_configured isAbs join dirname filesystem cfg root args compilation w
    outputPath :
  Js.truthy (Config.remoteChunksOutput cfg) = true →
  (∀ a b, join a b ≠ "") →
  outputOptions_path compilation = Some outputPath →
  outputPath ≠ "" →
  let paths := detectPaths isAbs join dirname cfg root args in
  let remote := remoteOptions cfg paths outputPath in
  let requested :=
    copies (localOptions cfg paths outputPath)
           (λ chunk, bool_decide (entryChunk (vars w) = Some chunk))
           (localChunks (vars w))
    ++ copies remote (λ _, false) (remoteChunks (vars w)) in
  (∀ c, c ∈ requested → filesystem c = None) →
  afterEmit filesystem cfg paths compilation w
  = ({| vars := vars w; assets := assets w; copied := copied w ++ requested |}, Normal tt)
  ∧ Some (AssetsCopyProcessor.bundleOutputDir remote) = remoteChunksOutput paths
  ∧ Some (AssetsCopyProcessor.assetsDest remote) = remoteChunksOutput paths
  ∧ AssetsCopyProcessor.bundleOutput remote = ""
  ∧ AssetsCopyProcessor.sourcemapOutput remote = "".
Proof.
  intros Hremote Hjoin Hpath Hne paths remote requested Hall.
  assert (Js.truthy (remoteChunksOutput paths) = true) as Ht.
  { unfold paths. by rewrite remoteChunksOutput_set. }
  assert (queued cfg paths outputPath (vars w) = requested) as Hq.
  { unfold queued. by rewrite Ht. }
  split_and!; [| | | done | done].
  - rewrite (afterEmit_all filesystem cfg paths compilation w outputPath);
      rewrite ?Hq; done.
  - change (Some (Js.nullish (remoteChunksOutput paths) "") = remoteChunksOutput paths).
    destruct (remoteChunksOutput paths); [done | discriminate Ht].
  - change (Some (Js.nullish (remoteChunksOutput paths) "") = remoteChunksOutput paths).
    destruct (remoteChunksOutput paths); [done | discriminate Ht].
Qed.

Lemma remote_output_configured_witness :
  let cfg := Builds.configure None (Some "remote") in
  let v := classify cfg Builds.split initial in
  let w := {| vars := v; assets := ∅; copied := [] |} in
  ∃ w', afterEmit Builds.reliable cfg
          (detectPaths Builds.isAbsolute Builds.join Builds.dirname cfg
             "/app" Builds.bundleArguments)
          Builds.split w = (w', Normal tt)
        ∧ ((λ c, (AssetsCopyProcessor.bundleOutputDir (AssetsCopyProcessor.copy_to c),
                  AssetsCopyProcessor.copy_chunk c, AssetsCopyProcessor.copy_isEntry c))
           <$> copied w')
          = [("/app/ios/main.jsbundle/..", 0, true); ("/app/ios/main.jsbundle/..", 1, false);
             ("/app/remote", 2, false)].
Proof.
  intros cfg v w.
  destruct (remote_output_configured Builds.isAbsolute Builds.join Builds.dirname
              Builds.reliable cfg "/app" Builds.bundleArguments Builds.split w "/build")
    as (Hrun & _); [reflexivity | | reflexivity | discriminate | done |].
  - intros a b. unfold Builds.join. destruct a; discriminate.
  - eexists. split; [exact Hrun | reflexivity].
Defined.

(** X18: when one of the copies the callback asks for fails, the callback
    throws the error of a failed copy; the copies that do not fail are
    carried out all the same, and the closure variables and the assets are as
    they were. *)
Theorem failed_copy_is_fatal filesystem cfg paths compilation w outputPath :
  outputOptions_path compilation = Some outputPath →
  outputPath ≠ "" →
  (∃ c, c ∈ queued cfg paths outputPath (vars w) ∧ filesystem c ≠ None) →
  ∃ w' message c,
    afterEmit filesystem cfg paths compilation w = (w', Throw message)
    ∧ c ∈ queued cfg paths outputPath (vars w)
    ∧ filesystem c = Some message
    ∧ vars w' = vars w
    ∧ assets w' = assets w
    ∧ copied w'
      = copied w ++ filter (λ c, filesystem c = None) (queued cfg paths outputPath (vars w)).
Proof.
  intros Hpath Hne Hfail.
  destruct (rejection_settle_Some filesystem _ Hfail) as (message & c & Hr & Hc & Hm).
  rewrite (afterEmit_eq filesystem cfg paths compilation w outputPath) by done. cbv zeta.
  rewrite Hr, fulfilled_settle. eexists _, message, c.
  split; [reflexivity |]. by split_and!.
Qed.

Lemma failed_copy_is_fatal_witness :
  let cfg := Builds.configure None (Some "remote") in
  let v := classify cfg Builds.split initial in
  let w := {| vars := v; assets := ∅; copied := [] |} in
  ∃ w', afterEmit Builds.failing cfg
          (detectPaths Builds.isAbsolute Builds.join Builds.dirname cfg
             "/app" Builds.bundleArguments)
          Builds.split w = (w', Throw "ENOSPC")
        ∧ ((λ c, (AssetsCopyProcessor.copy_chunk c, AssetsCopyProcessor.copy_isEntry c))
           <$> copied w') = [(0, true); (2, false)].
Proof.
  intros cfg v w.
  destruct (failed_copy_is_fatal Builds.failing cfg
              (detectPaths Builds.isAbsolute Builds.join Builds.dirname cfg
                 "/app" Builds.bundleArguments)
              Builds.split w "/build")
    as (w' & message & c & Hrun & _ & _ & _ & _ & Hcopied); [reflexivity | discriminate | |].
  - eexists. split.
    + apply list_elem_of_lookup. exists 1. reflexivity.
    + discriminate.
  - exists w'.
    assert (w' = (afterEmit Builds.failing cfg
                    (detectPaths Builds.isAbsolute Builds.join Builds.dirname cfg
                       "/app" Builds.bundleArguments) Builds.split w).1) as Hw
      by (by rewrite Hrun).
    split; [| rewrite Hcopied; reflexivity].
    rewrite Hrun. f_equal.
    assert (Throw message
            = (afterEmit Builds.failing cfg
                 (detectPaths Builds.isAbsolute Builds.join Builds.dirname cfg
                    "/app" Builds.bundleArguments) Builds.split w).2) as Hm
      by (by rewrite Hrun).
    exact Hm.
Defined.

(** X19: when [remoteChunksOutput] is left out of the configuration (or is
    empty), the remote processor is given no chunk, whatever [remoteChunks]
    holds; the local processor is given every chunk of [localChunks], in
    order, flagged as entry exactly when it is [entryChunk]; and when none of
    these copies fails, the copies the callback carries out are those of the
    local processor alone. *)
Theorem no_remote_output isAbs join dirname filesystem cfg root args compilation w outputPath :
  Js.truthy (Config.remoteChunksOutput cfg) = false →
  outputOptions_path compilation = Some outputPath →
  outputPath ≠ "" →
  let paths := detectPaths isAbs join dirname cfg root args in
  let v := vars w in
  let isEntry chunk := bool_decide (entryChunk v = Some chunk) in
  let requested := copies (localOptions cfg paths outputPath) isEntry (localChunks v) in
  (∀ c, c ∈ requested → filesystem c = None) →
  (∀ p, enqueueRemote paths v p = p)
  ∧ AssetsCopyProcessor.queue
      (enqueueLocal v (AssetsCopyProcessor.new (localOptions cfg paths outputPath)))
    = (λ chunk, (chunk, isEntry chunk)) <$> localChunks v
  ∧ afterEmit filesystem cfg paths compilation w
    = ({| vars := v; assets := assets w; copied := copied w ++ requested |}, Normal tt).
Proof.
  intros Hremote Hpath Hne paths v isEntry requested Hall.
  assert (Js.truthy (remoteChunksOutput paths) = false) as Ht.
  { unfold paths. by rewrite remoteChunksOutput_unset. }
  assert (queued cfg paths outputPath (vars w) = requested) as Hq.
  { unfold queued. rewrite Ht. apply app_nil_r. }
  split_and!.
  - intros p. unfold enqueueRemote. by rewrite Ht.
  - unfold enqueueLocal. by rewrite enqueue_all.
  - rewrite (afterEmit_all filesystem cfg paths compilation w outputPath);
      rewrite ?Hq; done.
Qed.

Lemma no_remote_output_witness :
  let v := classify (Builds.configure None None) Builds.split initial in
  let w := {| vars := v; assets := ∅; copied := [] |} in
  remoteChunks v = [2]
  ∧ ∃ w', afterEmit Builds.reliable (Builds.configure None None)
            (detectPaths Builds.isAbsolute Builds.join Builds.dirname
               (Builds.configure None None) "/app" Builds.bundleArguments)
            Builds.split w = (w', Normal tt)
          ∧ ((λ c, (AssetsCopyProcessor.copy_chunk c, AssetsCopyProcessor.copy_isEntry c))
             <$> copied w') = [(0, true); (1, false)].
Proof.
  intros v w. split; [reflexivity |].
  destruct (no_remote_output Builds.isAbsolute Builds.join Builds.dirname Builds.reliable
              (Builds.configure None None) "/app" Builds.bundleArguments
              Builds.split w "/build")
    as (_ & _ & Hrun); [reflexivity | reflexivity | discriminate | done |].
  eexists. split; [exact Hrun | reflexivity].
Defined.

(** ** A whole build *)

(** X12: a bundle build with the plugin alone, an entry chunk that is
    resolved, its first file among the assets, an output path, and copies
    none of which fails: the build ends normally; the main bundle asset got
    the declaration in front, and the copies are those of the chunks
    classified local, then, if a remote directory was detected, those of the
    chunks classified remote. *)
Theorem build_succeeds isAbs join dirname filesystem cfg o args compilation w e file source
    outputPath :
  Cli.arguments o = Cli.ArgumentsBundle args →
  Js.truthy_bool (Config.devServerEnabled cfg) = false →
  findEntryChunk cfg compilation = Some e →
  head (files (heap compilation e)) = Some file →
  assets w !! file = Some source →
  outputOptions_path compilation = Some outputPath →
  outputPath ≠ "" →
  let v := classify cfg compilation (vars w) in
  let paths := detectPaths isAbs join dirname cfg (Cli.config_root o) args in
  let requested :=
    copies (localOptions cfg paths outputPath) (λ chunk, bool_decide (chunk = e))
           (localChunks v)
    ++ (if Js.truthy (remoteChunksOutput paths)
        then copies (remoteOptions cfg paths outputPath) (λ _, false) (remoteChunks v)
        else []) in
  (∀ c, c ∈ requested → filesystem c = None) →
  runBuild (OutputPlugin.apply isAbs join dirname filesystem {| config := cfg |}
              (Some o) emptyCompiler)
           compilation w
  = ({| vars := v;
        assets := <[file := manifest compilation v +:+ Js.newline +:+ source]> (assets w);
        copied := copied w ++ requested |},
     Normal tt).
Proof.
  intros Ha Hd He Hfile Hsource Hpath Hne v paths requested Hall.
  rewrite (runBuild_apply isAbs join dirname filesystem cfg o args) by done.
  rewrite (processAssets_injects cfg compilation w e file source) by done.
  assert (queued cfg paths outputPath v = requested) as Hq.
  { unfold queued, requested. subst v. rewrite entryChunk_classify, He. f_equal.
    unfold copies. apply list_fmap_ext. intros _ chunk _. f_equal.
    apply bool_decide_ext. split; [by intros [= ->] | by intros ->]. }
  rewrite (afterEmit_all filesystem cfg _ compilation _ outputPath); simpl;
    fold v paths; rewrite ?Hq; done.
Qed.

Lemma build_succeeds_witness :
  let w := Builds.world [("main.chunk.bundle", "BODY"); ("vendor.chunk.bundle", "LIB");
                         ("async.chunk.bundle", "LAZY")] in
  ∃ w', runBuild (OutputPlugin.apply Builds.isAbsolute Builds.join Builds.dirname
                    Builds.reliable {| config := Builds.configure None (Some "remote") |}
                    (Some Builds.bundleCommand) emptyCompiler)
                 Builds.split w = (w', Normal tt)
        ∧ ((λ c, (AssetsCopyProcessor.copy_chunk c, AssetsCopyProcessor.copy_isEntry c))
           <$> copied w') = [(0, true); (1, false); (2, false)]
        ∧ assets w' !! "vendor.chunk.bundle" = Some "LIB".
Proof.
  intros w. eexists. split.
  - apply (build_succeeds Builds.isAbsolute Builds.join Builds.dirname Builds.reliable
             (Builds.configure None (Some "remote")) Builds.bundleCommand
             Builds.bundleArguments Builds.split w 0 "main.chunk.bundle" "BODY" "/build");
      [reflexivity .. | discriminate | done].
  - split; reflexivity.
Defined.

(** X13: the same build without an output path in the compilation: the
    [afterEmit] callback throws and nothing is copied, but the declaration is
    already in front of the main bundle asset. *)
Theorem build_without_output_path isAbs join dirname filesystem cfg o args compilation w e
    file source :
  Cli.arguments o = Cli.ArgumentsBundle args →
  Js.truthy_bool (Config.devServerEnabled cfg) = false →
  findEntryChunk cfg compilation = Some e →
  head (files (heap compilation e)) = Some file →
  assets w !! file = Some source →
  Js.truthy (outputOptions_path compilation) = false →
  let v := classify cfg compilation (vars w) in
  runBuild (OutputPlugin.apply isAbs join dirname filesystem {| config := cfg |}
              (Some o) emptyCompiler)
           compilation w
  = ({| vars := v;
        assets := <[file := manifest compilation v +:+ Js.newline +:+ source]> (assets w);
        copied := copied w |},
     Throw "Cannot infer output path from compilation").
Proof.
  intros Ha Hd He Hfile Hsource Hpath v.
  rewrite (runBuild_apply isAbs join dirname filesystem cfg o args) by done.
  rewrite (processAssets_injects cfg compilation w e file source) by done.
  unfold afterEmit. by rewrite Hpath.
Qed.

Lemma build_without_output_path_witness :
  let w := Builds.world [("main.chunk.bundle", "BODY")] in
  ∃ w', runBuild (OutputPlugin.apply Builds.isAbsolute Builds.join Builds.dirname
                    Builds.reliable {| config := Builds.configure None None |}
                    (Some Builds.bundleCommand) emptyCompiler)
                 Builds.noOutputPath w
        = (w', Throw "Cannot infer output path from compilation")
        ∧ copied w' = []
        ∧ assets w' !! "main.chunk.bundle" ≠ assets w !! "main.chunk.bundle".
Proof.
  intros w. eexists. split.
  - apply (build_without_output_path Builds.isAbsolute Builds.join Builds.dirname
             Builds.reliable (Builds.configure None None) Builds.bundleCommand
             Builds.bundleArguments Builds.noOutputPath w 0 "main.chunk.bundle" "BODY");
      reflexivity.
  - split; [reflexivity | discriminate].
Defined.

(** X14: when the entry chunk is resolved but has no file, or its first
    file is not among the assets, the [processAssets] callback throws; the
    assets are as they were and nothing is copied, while the two arrays have
    been filled. *)
Theorem injection_without_asset cfg compilation w e :
  findEntryChunk cfg compilation = Some e →
  head (files (heap compilation e)) = None
  ∨ (∃ file, head (files (heap compilation e)) = Some file ∧ assets w !! file = None) →
  ∃ message,
    processAssets cfg compilation w
    = ({| vars := classify cfg compilation (vars w); assets := assets w; copied := copied w |},
       Throw message).
Proof.
  intros He Hmissing. rewrite processAssets_eq, He.
  destruct Hmissing as [Hnone | (file & Hfile & Hnone)].
  - rewrite Hnone. unfold updateAsset. simpl. eauto.
  - rewrite Hfile. unfold updateAsset. simpl. rewrite Hnone. eauto.
Qed.

Lemma injection_without_asset_witness :
  ∃ message,
    processAssets (Builds.configure None None) Builds.split (Builds.world [])
    = ({| vars := classify (Builds.configure None None) Builds.split initial;
          assets := ∅; copied := [] |},
       Throw message).
Proof.
  apply (injection_without_asset (Builds.configure None None) Builds.split (Builds.world []) 0).
  - reflexivity.
  - right. exists "main.chunk.bundle". split; reflexivity.
Defined.

(** X15: the callback run a second time on the same compilation puts a
    second declaration in front of the first: nothing tells it that the asset
    already has one, and the second declaration is made from arrays that still
    hold what the first run pushed.  The second run starts from the rule
    objects as the first run left them. *)
Theorem injection_twice cfg compilation w e file source :
  findEntryChunk cfg compilation = Some e →
  head (files (heap compilation e)) = Some file →
  assets w !! file = Some source →
  let v1 := classify cfg compilation (vars w) in
  let cfg1 := configAfter cfg compilation (vars w) in
  let v2 := classify cfg1 compilation v1 in
  ∃ w1 w2,
    processAssets cfg compilation w = (w1, Normal tt)
    ∧ processAssets cfg1 compilation w1 = (w2, Normal tt)
    ∧ vars w2 = v2
    ∧ assets w2 !! file
      = Some (manifest compilation v2 +:+ Js.newline
              +:+ manifest compilation v1 +:+ Js.newline +:+ source).
Proof.
  intros He Hfile Hsource v1 cfg1 v2.
  eexists _, _. split; [by apply (processAssets_injects cfg compilation w e file source) |].
  split.
  - apply (processAssets_injects cfg1 compilation _ e file); [| done |].
    + unfold cfg1. by rewrite findEntryChunk_configAfter.
    + simpl. apply lookup_insert_eq.
  - simpl. split; [done |]. by rewrite lookup_insert_eq.
Qed.

Lemma injection_twice_witness :
  let cfg := Builds.configure None None in
  let w := Builds.world [("main.chunk.bundle", "BODY")] in
  ∃ w1 w2,
    processAssets cfg Builds.apart w = (w1, Normal tt)
    ∧ processAssets cfg Builds.apart w1 = (w2, Normal tt)
    ∧ localChunks (vars w2) = [0; 0]
    ∧ remoteChunks (vars w2) = [1; 2; 1; 2].
Proof.
  intros cfg w.
  destruct (injection_twice cfg Builds.apart w 0 "main.chunk.bundle" "BODY")
    as (w1 & w2 & H1 & H2 & Hv & _); [reflexivity .. |].
  exists w1, w2. split_and!; [exact H1 | exact H2 | |]; rewrite Hv; reflexivity.
Defined.

(** * Further properties of the declaration *)

Lemma printable_app (a b : string) : printable (a +:+ b) = printable a && printable b.
Proof. induction a as [| c a IH]; [done |]. simpl. by rewrite IH, andb_assoc. Qed.

Lemma printable_quote_char (c : ascii) : printable (Js.quote_char c) = true.
Proof. destruct c as [[] [] [] [] [] [] [] []]; reflexivity. Qed.

Lemma printable_quote (s : string) : printable (Js.quote s) = true.
Proof.
  unfold Js.quote. simpl. rewrite printable_app. simpl.
  rewrite andb_true_r. induction s as [| c s IH]; [done |].
  simpl. by rewrite printable_app, printable_quote_char, IH.
Qed.

Lemma printable_join_comma (l : list string) :
  (∀ x, x ∈ l → printable x = true) → printable (Js.join_comma l) = true.
Proof.
  induction l as [| x l IH]; intros H; [done |].
  assert (printable x = true) as Hx by (apply H, elem_of_cons; by left).
  assert (printable (Js.join_comma l) = true) as Hl.
  { apply IH. intros y Hy. apply H, elem_of_cons. by right. }
  destruct l as [| y l]; [done |].
  change (printable (x +:+ "," +:+ Js.join_comma (y :: l)) = true).
  by rewrite !printable_app, Hx, Hl.
Qed.

(** X16: the declaration has no control character in it, whatever the
    identities of the local chunks are: in particular it has no line break, so
    the declaration with the newline after it is one line in front of the old
    source. *)
Theorem manifest_single_line compilation v : printable (manifest compilation v) = true.
Proof.
  unfold manifest, Js.stringify_local, Js.stringify_array.
  rewrite !printable_app, printable_quote, printable_join_comma; [done |].
  intros x (i & -> & _)%list_elem_of_fmap.
  destruct i as [s |]; [apply printable_quote | done].
Qed.

(** ** Telling declarations apart *)

(** X17: the serialized [{ local: [...] }] determines the list of
    identities, with its order and its repetitions: declarations made from
    different lists are different. *)
Theorem stringify_local_inj (l1 l2 : list (option string)) :
  Js.stringify_local l1 = Js.stringify_local l2 → l1 = l2.
Proof.
  unfold Js.stringify_local. intros H.
  pose proof (reads_array l1 "}") as H1. pose proof (reads_array l2 "}") as H2.
  remember (Js.stringify_array l1 +:+ "}") as a1 eqn:E1.
  remember (Js.stringify_array l2 +:+ "}") as a2 eqn:E2.
  clear E1 E2. cbv in H. repeat injection H as H. subst a2.
  by destruct (ReadsArray_fun _ _ _ H1 _ _ H2).
Qed.

Lemma stringify_local_inj_witness :
  identity Builds.split <$> localChunks (classify (Builds.configure None None) Builds.split initial)
  = [Some "main"; Some "vendor"].
Proof.
  apply (stringify_local_inj
           (identity Builds.split
              <$> localChunks (classify (Builds.configure None None) Builds.split initial))
           [Some "main"; Some "vendor"]).
  reflexivity.
Defined.
